(** * TF-IDF similarity ranking (main.cpp): a shallow embedding

    The program normalises four documents, counts their words, computes
    term frequency, inverse document frequency and their product for the
    words of the first document, and prints the id of the document whose
    summed score is largest.

    Modelling choices, all read off main.cpp:
    - [std::string] is [string] (a list of 8-bit characters, NUL allowed);
    - [int] is [Z]; the counters the loops add to (the word counts and
      [nWords]) are wrapped to 32 bits by [wrap_int], while the sizes and
      loop indices, bounded by the length of a vector held in memory, are
      not;
    - [std::map<string,V>] is a key-ordered association list ([smap V]):
      iteration runs in increasing key order, [operator[]] on an absent
      key reads the default value;
    - [double] is read as an exact real number ([R]) in the functions that
      build the tables: [/] is real division, [log] is [ln].  Rounding,
      infinities and NaN are outside that reading, and it departs from the
      code where a divisor is zero (a document without words, a word found
      in no document); the theorems about TF and IDF carry the hypotheses
      that exclude those cases;
    - the ranking loop of getMostSimilarDocument adds doubles and compares
      the sums, so its outcome depends on rounding and on NaN: it is also
      embedded over IEEE binary64 (module [B64], on Rocq's primitive
      [float]), operation for operation, and what is stated about the
      returned id for arbitrary tables is stated there. *)

From Stdlib Require Import ZArith List String Ascii Bool Lia DecimalString.
From Stdlib Require Import Reals Lra.
From Stdlib Require Import Floats.
Import ListNotations.

Local Open Scope string_scope.

(** ** Characters and text normalisation *)

(** [::tolower] in the C locale (the program never calls setlocale):
    'A'..'Z' go to 'a'..'z', every other byte is returned as it is. *)
Definition tolower (c : ascii) : ascii :=
  let n := N_of_ascii c in
  if (N.leb 65 n && N.leb n 90)%bool then ascii_of_N (n + 32) else c.

(** [std::transform(first, last, first, f)] over a string. *)
Fixpoint transform (f : ascii -> ascii) (s : string) : string :=
  match s with
  | EmptyString => EmptyString
  | String c s' => String (f c) (transform f s')
  end.

(** [std::replace(first, last, old, new)] over a string. *)
Fixpoint replace (old new : ascii) (s : string) : string :=
  match s with
  | EmptyString => EmptyString
  | String c s' =>
      String (if Ascii.eqb c old then new else c) (replace old new s')
  end.

(** The characters of the literal that initialises [punctuation]. *)
Definition punctuation_literal : list ascii :=
  ["."; ","; ";"; ":"; "!"; "?"; "034"; "010"]%char.

(** The array [punctuation] is initialised from that literal without a
    declared size: it holds the eight characters of the literal followed by
    the terminating NUL. *)
Definition punctuation : list ascii := punctuation_literal ++ [Ascii.zero].

(** [sizeof(punctuation)], the bound of the loop in removePunctuation. *)
Definition sizeof_punctuation : nat := List.length punctuation.

(** The loop [for (i = 0; i < sizeof(punctuation); i++) replace(..., punctuation[i], ' ')]. *)
Fixpoint replace_loop (ps : list ascii) (input : string) : string :=
  match ps with
  | [] => input
  | p :: ps' => replace_loop ps' (replace p " "%char input)
  end.

Definition removePunctuation (input : string) : string :=
  let input := transform tolower input in
  replace_loop (firstn sizeof_punctuation punctuation) input.

(** What one character becomes: used to describe removePunctuation
    character by character. *)
Definition is_replaced (c : ascii) : bool :=
  existsb (Ascii.eqb c) punctuation.

Definition normChar (c : ascii) : ascii :=
  if is_replaced (tolower c) then " "%char else tolower c.

(** One pass of the loop per array element, folded into one character map:
    the per-character reading of [replace_loop]. *)
Fixpoint replace_char (ps : list ascii) (c : ascii) : ascii :=
  match ps with
  | [] => c
  | p :: ps' => replace_char ps' (if Ascii.eqb c p then " "%char else c)
  end.

(** The character map as the documentation of removePunctuation words it
    (a second definition, for comparison with [normChar]): only the
    characters of the literal become spaces. *)
Definition documented_normChar (c : ascii) : ascii :=
  if existsb (Ascii.eqb (tolower c)) punctuation_literal
  then " "%char else tolower c.

(** ** int *)

Definition INT_MAX : Z := 2147483647.

(** Two's complement wrap-around of a 32-bit [int]. *)
Definition wrap_int (z : Z) : Z := ((z + 2 ^ 31) mod 2 ^ 32 - 2 ^ 31)%Z.

(** ** std::map with string keys *)

Definition smap (V : Type) : Type := list (string * V).

Definition keys {V : Type} (m : smap V) : list string := map fst m.

(** Reading [m[k]]: the stored value, or the value-initialised default [d]
    when the key is absent.  (operator[] also inserts the default; every
    map read this way in main.cpp is a local copy that is either written
    at the same key next or not iterated afterwards, so the insertion is
    never observed.) *)
Fixpoint map_get {V : Type} (d : V) (k : string) (m : smap V) : V :=
  match m with
  | [] => d
  | (k', v) :: m' => if String.eqb k k' then v else map_get d k m'
  end.

(** Writing [m[k] = v]: the entry is replaced or inserted at its place in
    key order (std::less on strings compares bytes as unsigned). *)
Fixpoint map_set {V : Type} (k : string) (v : V) (m : smap V) : smap V :=
  match m with
  | [] => [(k, v)]
  | (k', v') :: m' =>
      match String.compare k k' with
      | Eq => (k, v) :: m'
      | Lt => (k, v) :: (k', v') :: m'
      | Gt => (k', v') :: map_set k v m'
      end
  end.

(** Keys strictly increasing: the shape of every std::map. *)
Inductive key_sorted {V : Type} : smap V -> Prop :=
| ks_nil : key_sorted []
| ks_one : forall k v, key_sorted [(k, v)]
| ks_cons : forall k v k' v' m,
    String.compare k k' = Lt ->
    key_sorted ((k', v') :: m) ->
    key_sorted ((k, v) :: (k', v') :: m).

(** ** getUniqueWords *)

(** The words delivered by the successive successful calls of
    [getline(sentence, word, ' ')]: [word] is the part of the current
    word read so far, [s] the rest of the stream.  At the end of the
    stream a call that extracted nothing fails and ends the loop. *)
Fixpoint getline_loop (word : string) (s : string) : list string :=
  match s with
  | EmptyString =>
      match word with
      | EmptyString => []
      | _ => [word]
      end
  | String c s' =>
      if Ascii.eqb c " "%char
      then word :: getline_loop EmptyString s'
      else getline_loop (word ++ String c EmptyString) s'
  end.

(** The body of the while loop of getUniqueWords. *)
Definition count_word (mString : smap Z) (word : string) : smap Z :=
  if String.eqb word EmptyString then mString
  else if Z.eqb (map_get 0%Z word mString) 0
       then map_set word 1%Z mString
       else map_set word (wrap_int (map_get 0%Z word mString + 1)) mString.

Definition getUniqueWords (text : string) : smap Z :=
  let input := removePunctuation text in
  fold_left count_word (getline_loop EmptyString input) [].

(** The non-empty words of a text, in order: what the loop counts. *)
Definition words_of (text : string) : list string :=
  filter (fun w => negb (String.eqb w EmptyString))
         (getline_loop EmptyString (removePunctuation text)).

(** ** double *)

(** The truth value of a [double] in a condition: it is not zero. *)
Definition nonzero (x : R) : bool := if Req_dec_T x 0 then false else true.

(** [x >= y] on [double]. *)
Definition Rgeb (x y : R) : bool := if Rge_dec x y then true else false.

(** ** computeTF *)

(** [nWords]: the sum of all the counts of one document's map. *)
Definition total_words (wordsD : smap Z) : Z :=
  fold_left (fun nWords it => wrap_int (nWords + snd it)) wordsD 0%Z.

(** The body of the inner loop over the reference words. *)
Definition tf_step (wordsD : smap Z) (nWords : Z)
    (currentCounts : smap R) (it : string * Z) : smap R :=
  let rWord := fst it in
  let currentCounts :=
    if Z.eqb (map_get 0%Z rWord wordsD) 0
    then map_set rWord 0%R currentCounts
    else map_set rWord (IZR (map_get 0%Z rWord wordsD)) currentCounts in
  map_set rWord (map_get 0%R rWord currentCounts / IZR nWords)%R currentCounts.

(** One iteration of the loop over the documents. *)
Definition tf_row (refWords : smap Z) (doc : string) : smap R :=
  let wordsD := getUniqueWords doc in
  let nWords := total_words wordsD in
  fold_left (tf_step wordsD nWords) refWords [].

(** The array [Docs] and its length [nDocs] are one list. *)
Definition computeTF (refWords : smap Z) (Docs : list string) : list (smap R) :=
  map (tf_row refWords) Docs.

(** ** computeIDF *)

(** [nOcc] after the loop over the documents. *)
Definition count_docs (rWord : string) (Docs : list string) : R :=
  fold_left
    (fun nOcc doc =>
       if Z.eqb (map_get 0%Z rWord (getUniqueWords doc)) 0
       then nOcc else (nOcc + 1)%R)
    Docs 0%R.

Definition computeIDF (refWords : smap Z) (Docs : list string) : smap R :=
  let nDocs := Z.of_nat (List.length Docs) in
  fold_left
    (fun counts it =>
       let rWord := fst it in
       map_set rWord (ln (IZR nDocs / count_docs rWord Docs)) counts)
    refWords [].

(** Document frequency: the number of documents whose map holds the word. *)
Definition docFreq (w : string) (Docs : list string) : nat :=
  List.length
    (filter (fun doc => negb (Z.eqb (map_get 0%Z w (getUniqueWords doc)) 0)) Docs).

(** ** computeTFIDF *)

Definition tfidf_step (tf_i idf : smap R)
    (currentCounts : smap R) (it : string * Z) : smap R :=
  let rWord := fst it in
  if (negb (nonzero (map_get 0%R rWord tf_i))
      || negb (nonzero (map_get 0%R rWord idf)))%bool
  then map_set rWord 0%R currentCounts
  else map_set rWord (map_get 0%R rWord tf_i * map_get 0%R rWord idf)%R
         currentCounts.

Definition computeTFIDF (refWords : smap Z) (tf : list (smap R))
    (idf : smap R) : list (smap R) :=
  map (fun tf_i => fold_left (tfidf_step tf_i idf) refWords []) tf.

(** ** getMostSimilarDocument *)

(** [sum] after the inner loop over the reference words. *)
Definition doc_sum (refWords : smap Z) (row : smap R) : R :=
  fold_left
    (fun sum it =>
       if nonzero (map_get 0%R (fst it) row)
       then (sum + map_get 0%R (fst it) row)%R else sum)
    refWords 0%R.

(** The two variables the outer loop updates. *)
Record rank_state : Type := mkRank { maxId : Z; maxSum : R }.

(** The body of the outer loop at index [i]. *)
Definition rank_step (refWords : smap Z) (tfidf : list (smap R))
    (st : rank_state) (i : nat) : rank_state :=
  let sum := doc_sum refWords (nth i tfidf []) in
  if Rgeb sum (maxSum st)
  then mkRank (Z.of_nat i + 1) sum
  else st.

(** [for (int i = 1; i < nDocs; i++)] with [nDocs = tfidf.size()]. *)
Definition getMostSimilarDocument (refWords : smap Z)
    (tfidf : list (smap R)) : Z :=
  let nDocs := List.length tfidf in
  maxId (fold_left (rank_step refWords tfidf) (seq 1 (nDocs - 1))
                   (mkRank 0 0)).

(** The summed score of the document at array index [i]. *)
Definition score (refWords : smap Z) (tfidf : list (smap R)) (i : nat) : R :=
  doc_sum refWords (nth i tfidf []).

(** Document [i] wins the ranking: it is a candidate (index 1 or more),
    its score passes the test against the initial maximum 0, no candidate
    scores more and no later candidate scores as much. *)
Definition winner (refWords : smap Z) (tfidf : list (smap R)) (i : nat) : Prop :=
  (1 <= i < List.length tfidf)%nat /\
  (0 <= score refWords tfidf i)%R /\
  (forall k, (1 <= k < List.length tfidf)%nat ->
             (score refWords tfidf k <= score refWords tfidf i)%R) /\
  (forall k, (i < k < List.length tfidf)%nat ->
             (score refWords tfidf k < score refWords tfidf i)%R).

(** Every score stored in the table is non-negative, as a product of a
    frequency and the logarithm of a ratio at least 1 is. *)
Definition nonneg_scores (tfidf : list (smap R)) : Prop :=
  forall row k v, In row tfidf -> In (k, v) row -> (0 <= v)%R.

(** ** main *)

Definition Docs : list string :=
  [ "I'd... like, an! apple.";
    "An apple a day keeps the doctor away.";
    "Never compare an apple to an orange.";
    "I prefer scikit-learn to orange." ].

Definition main_refWords : smap Z := getUniqueWords (nth 0 Docs EmptyString).
Definition main_tf : list (smap R) := computeTF main_refWords Docs.
Definition main_idf : smap R := computeIDF main_refWords Docs.
Definition main_tfidf : list (smap R) :=
  computeTFIDF main_refWords main_tf main_idf.

(** The integer handed to [cout <<]. *)
Definition main_result : Z := getMostSimilarDocument main_refWords main_tfidf.

(** What [cout << n] writes for an [int]: its decimal digits. *)
Definition print_int (n : Z) : string := NilZero.string_of_int (Z.to_int n).

Definition main_stdout : string := print_int main_result.

(** ** Cells of the tables *)

(** The TF of word [w] in document [i]. *)
Definition tf_cell (refWords : smap Z) (Docs : list string)
    (i : nat) (w : string) : R :=
  map_get 0%R w (nth i (computeTF refWords Docs) []).

(** The IDF of word [w]. *)
Definition idf_cell (refWords : smap Z) (Docs : list string) (w : string) : R :=
  map_get 0%R w (computeIDF refWords Docs).

(** The TF-IDF of word [w] in document [i]. *)
Definition tfidf_cell (refWords : smap Z) (tf : list (smap R)) (idf : smap R)
    (i : nat) (w : string) : R :=
  map_get 0%R w (nth i (computeTFIDF refWords tf idf) []).

(** ** Notions used to state the invariants *)

(** The sum of the values of a map, without wrap-around. *)
Definition vsum (m : smap Z) : Z :=
  fold_right (fun it acc => (snd it + acc)%Z) 0%Z m.

Definition nonempty (w : string) : bool := negb (String.eqb w EmptyString).

(** How often [w] occurs among the non-empty words of a list. *)
Definition occurrences (w : string) (ws : list string) : Z :=
  Z.of_nat (count_occ string_dec (filter nonempty ws) w).

(** A word-count map: sorted keys, counts of at least 1 that add up to [n]. *)
Definition counts_ok (m : smap Z) (n : Z) : Prop :=
  key_sorted m /\
  (forall k v, In (k, v) m -> (1 <= v)%Z) /\
  vsum m = n.

(** The state of the ranking loop once the indices 1..m are done: either
    nothing was selected and every score so far is negative, or the
    selected document is the last one with the largest score so far. *)
Definition rank_inv (refWords : smap Z) (tfidf : list (smap R))
    (m : nat) (st : rank_state) : Prop :=
  (maxId st = 0%Z /\ maxSum st = 0%R /\
   forall k, (1 <= k <= m)%nat -> (score refWords tfidf k < 0)%R)
  \/
  (exists i, (1 <= i <= m)%nat /\
     maxId st = (Z.of_nat i + 1)%Z /\
     maxSum st = score refWords tfidf i /\
     (0 <= score refWords tfidf i)%R /\
     (forall k, (1 <= k <= m)%nat ->
                (score refWords tfidf k <= score refWords tfidf i)%R) /\
     (forall k, (i < k <= m)%nat ->
                (score refWords tfidf k < score refWords tfidf i)%R)).

(** The sum of the cells of a row over the reference words. *)
Definition cell_sum (refWords : smap Z) (row : smap R) : R :=
  fold_left (fun sum it => (sum + map_get 0%R (fst it) row)%R) refWords 0%R.

(** ** Notions used to state further properties *)

(** The characters of a string, in order. *)
Definition chars (s : string) : list ascii := list_ascii_of_string s.

(** A character removePunctuation leaves alone: not one of the elements of
    [punctuation] and not an upper-case letter. *)
Definition clean_char (c : ascii) : bool :=
  (negb (is_replaced c) && Ascii.eqb (tolower c) c)%bool.

(** A character that may stand inside a counted word. *)
Definition word_char (c : ascii) : bool :=
  (clean_char c && negb (Ascii.eqb c " "%char))%bool.

(** The body of main over any array of documents. *)
Definition main_on (Docs : list string) : Z :=
  let refWords := getUniqueWords (nth 0 Docs EmptyString) in
  let tf := computeTF refWords Docs in
  let idf := computeIDF refWords Docs in
  let tfidf := computeTFIDF refWords tf idf in
  getMostSimilarDocument refWords tfidf.

(** The documents a word occurs in (counted with [docFreq]) and the
    documents it is missing from. *)
Definition occurs_in (w : string) (doc : string) : bool :=
  existsb (String.eqb w) (words_of doc).

(** ** getMostSimilarDocument over binary64 *)

Module B64.

(** A [double] used as a condition: true unless it compares equal to
    zero; both zeros are false and NaN is true. *)
Definition truthy (x : float) : bool := negb (PrimFloat.eqb x 0%float).

(** [x >= y] on [double]; false as soon as one side is NaN. *)
Definition geb (x y : float) : bool := PrimFloat.leb y x.

(** [sum] after the inner loop over the reference words; every [+=] is
    one rounded binary64 addition. *)
Definition doc_sum (refWords : smap Z) (row : smap float) : float :=
  fold_left
    (fun sum it =>
       if truthy (map_get 0%float (fst it) row)
       then PrimFloat.add sum (map_get 0%float (fst it) row) else sum)
    refWords 0%float.

(** The two variables the outer loop updates. *)
Record rank_state : Type := mkRank { maxId : Z; maxSum : float }.

(** The body of the outer loop at index [i]. *)
Definition rank_step (refWords : smap Z) (tfidf : list (smap float))
    (st : rank_state) (i : nat) : rank_state :=
  let sum := doc_sum refWords (nth i tfidf []) in
  if geb sum (maxSum st)
  then mkRank (Z.of_nat i + 1) sum
  else st.

(** [for (int i = 1; i < nDocs; i++)] with [nDocs = tfidf.size()]. *)
Definition getMostSimilarDocument (refWords : smap Z)
    (tfidf : list (smap float)) : Z :=
  let nDocs := List.length tfidf in
  maxId (fold_left (rank_step refWords tfidf) (seq 1 (nDocs - 1))
                   (mkRank 0 0%float)).

End B64.

(** The scores of one document for the reference words, in key order. *)
Definition cells (refWords : smap Z) (row : smap float) : list float :=
  map (fun w => map_get 0%float w row) (keys refWords).

(** The summed TF-IDF of a document, stated apart from the loop (a second
    definition, to compare [B64.doc_sum] with): its non-zero scores for
    the reference words added up from 0, in key order, each addition
    rounded to binary64. *)
Definition summed_cells (refWords : smap Z) (row : smap float) : float :=
  fold_left PrimFloat.add (filter B64.truthy (cells refWords row)) 0%float.

(** The summed TF-IDF of the document at array index [k]. *)
Definition summed (refWords : smap Z) (tfidf : list (smap float))
    (k : nat) : float :=
  summed_cells refWords (nth k tfidf []).

(** Document [i] wins the ranking of a table of doubles: it is a
    candidate (index 1 or more), its sum is at least 0, no earlier
    candidate has a larger sum and no later candidate has a sum at least
    as large.  A candidate whose sum is NaN never wins and never stands in
    the way. *)
Definition b64_winner (refWords : smap Z) (tfidf : list (smap float))
    (i : nat) : Prop :=
  (1 <= i < List.length tfidf)%nat /\
  B64.geb (summed refWords tfidf i) 0%float = true /\
  (forall k, (1 <= k < i)%nat ->
     PrimFloat.ltb (summed refWords tfidf i) (summed refWords tfidf k) = false) /\
  (forall k, (i < k < List.length tfidf)%nat ->
     B64.geb (summed refWords tfidf k) (summed refWords tfidf i) = false).

(** The state of the binary64 loop once the indices 1..m are done. *)
Definition b64_rank_inv (refWords : smap Z) (tfidf : list (smap float))
    (m : nat) (st : B64.rank_state) : Prop :=
  (B64.maxId st = 0%Z /\ B64.maxSum st = 0%float /\
   forall k, (1 <= k <= m)%nat ->
             B64.geb (summed refWords tfidf k) 0%float = false)
  \/
  (exists i, (1 <= i <= m)%nat /\
     B64.maxId st = (Z.of_nat i + 1)%Z /\
     B64.maxSum st = summed refWords tfidf i /\
     B64.geb (summed refWords tfidf i) 0%float = true /\
     (forall k, (1 <= k < i)%nat ->
        PrimFloat.ltb (summed refWords tfidf i) (summed refWords tfidf k)
        = false) /\
     (forall k, (i < k <= m)%nat ->
        B64.geb (summed refWords tfidf k) (summed refWords tfidf i) = false)).

(** The order of two comparison outcomes that are both at most [Eq]. *)
Definition below (c : comparison) : bool :=
  match c with Gt => false | _ => true end.

(** The tables used as examples of the binary64 ranking. *)
Definition abc : smap Z := [("a", 1%Z); ("b", 1%Z); ("c", 1%Z)].

(** Two candidates whose exact sums are equal and whose rounded sums are
    not: 2^-53 + 2^-53 + 1 is 1.0000000000000002, 1 + 2^-53 + 2^-53 is 1. *)
Definition rounding_table : list (smap float) :=
  [ [("a", 0.5%float); ("b", 0.5%float); ("c", 0.5%float)];
    [("a", 0x1p-53%float); ("b", 0x1p-53%float); ("c", 1%float)];
    [("a", 1%float); ("b", 0x1p-53%float); ("c", 0x1p-53%float)] ].

(** The table the program builds from the two documents [a b] and the
    empty text: the second document has no word, its TF is 0/0 = NaN and
    so are its scores (the IDF of both words is log 2, not zero). *)
Definition nan_table : list (smap float) :=
  [ [("a", 0x1.62e42fefa39efp-2%float); ("b", 0x1.62e42fefa39efp-2%float)];
    [("a", nan); ("b", nan)] ].



(** A candidate whose exact sum is negative and whose rounded sum is 0:
    1 - 2^-54 rounds to 1. *)
Definition cancelling_table : list (smap float) :=
  [ [("a", 0.5%float); ("b", 0.5%float); ("c", 0.5%float)];
    [("a", 1%float); ("b", (-0x1p-54)%float); ("c", (-1)%float)] ].

(** ** The functions on the corpus *)

Example removePunctuation_doc0 :
  removePunctuation "I'd... like, an! apple." = "i'd    like  an  apple ".
Proof. reflexivity. Qed.

Example getline_loop_doc0 :
  getline_loop EmptyString "i'd    like  an  apple "
  = ["i'd"; EmptyString; EmptyString; EmptyString; "like"; EmptyString;
     "an"; EmptyString; "apple"].
Proof. reflexivity. Qed.

Example getUniqueWords_doc2 :
  getUniqueWords "Never compare an apple to an orange."
  = [("an", 2%Z); ("apple", 1%Z); ("compare", 1%Z); ("never", 1%Z);
     ("orange", 1%Z); ("to", 1%Z)].
Proof. reflexivity. Qed.

Example total_words_corpus :
  map (fun doc => total_words (getUniqueWords doc)) Docs = [4; 8; 7; 5]%Z.
Proof. reflexivity. Qed.

Example docFreq_corpus :
  map (fun w => docFreq w Docs) ["an"; "apple"; "i'd"; "like"]
  = [3; 3; 1; 1]%nat.
Proof. reflexivity. Qed.

Example wrap_int_overflow : wrap_int (INT_MAX + 1) = (- 2147483648)%Z.
Proof. reflexivity. Qed.

(** ** Facts about normalisation *)

Lemma sizeof_punctuation_9 : sizeof_punctuation = 9%nat.
Proof. reflexivity. Qed.

Lemma replace_transform (old new : ascii) (s : string) :
  replace old new s = transform (fun c => if Ascii.eqb c old then new else c) s.
Proof. induction s as [|c s IH]; simpl; [reflexivity | now rewrite IH]. Qed.

Lemma transform_compose (f g : ascii -> ascii) (s : string) :
  transform g (transform f s) = transform (fun c => g (f c)) s.
Proof. induction s as [|c s IH]; simpl; [reflexivity | now rewrite IH]. Qed.

Lemma transform_ext (f g : ascii -> ascii) (s : string) :
  (forall c, f c = g c) -> transform f s = transform g s.
Proof.
  intros E; induction s as [|c s IH]; simpl; [reflexivity|].
  now rewrite E, IH.
Qed.

Lemma transform_length (f : ascii -> ascii) (s : string) :
  String.length (transform f s) = String.length s.
Proof. induction s as [|c s IH]; simpl; [reflexivity | now rewrite IH]. Qed.

Lemma replace_loop_transform (ps : list ascii) (s : string) :
  replace_loop ps s = transform (replace_char ps) s.
Proof.
  revert s; induction ps as [|p ps IH]; intros s; simpl.
  - induction s as [|c s IHs]; simpl; [reflexivity | now rewrite <- IHs].
  - rewrite IH, replace_transform, transform_compose. reflexivity.
Qed.

Lemma replace_char_normChar (c : ascii) :
  replace_char punctuation (tolower c) = normChar c.
Proof.
  destruct c as [[] [] [] [] [] [] [] []]; reflexivity.
Qed.

(** removePunctuation maps every character through [normChar]. *)
Lemma removePunctuation_pointwise (s : string) :
  removePunctuation s = transform normChar s.
Proof.
  unfold removePunctuation.
  change (firstn sizeof_punctuation punctuation) with punctuation.
  rewrite replace_loop_transform, transform_compose.
  apply transform_ext, replace_char_normChar.
Qed.

Lemma normChar_idem (c : ascii) : normChar (normChar c) = normChar c.
Proof.
  destruct c as [[] [] [] [] [] [] [] []]; reflexivity.
Qed.

(** The code and its documentation agree on every character but NUL. *)
Lemma normChar_documented (c : ascii) :
  c <> Ascii.zero -> normChar c = documented_normChar c.
Proof.
  destruct c as [[] [] [] [] [] [] [] []]; intros N;
    try reflexivity; now destruct N.
Qed.

Lemma normChar_nul :
  normChar Ascii.zero = " "%char /\ documented_normChar Ascii.zero = Ascii.zero.
Proof. split; reflexivity. Qed.

Lemma removePunctuation_length (s : string) :
  String.length (removePunctuation s) = String.length s.
Proof. rewrite removePunctuation_pointwise. apply transform_length. Qed.

(** ** Facts about string order *)

Lemma compare_refl (k : string) : String.compare k k = Eq.
Proof.
  pose proof (String.compare_antisym k k) as H.
  destruct (String.compare k k); simpl in H; congruence.
Qed.

Lemma compare_eqb (k k' : string) :
  String.eqb k k' = true <-> String.compare k k' = Eq.
Proof.
  split; intros H.
  - apply String.eqb_eq in H; subst; apply compare_refl.
  - apply String.compare_eq_iff in H; subst; apply String.eqb_refl.
Qed.

Lemma compare_lt_neq (k k' : string) :
  String.compare k k' = Lt -> String.eqb k k' = false.
Proof.
  intros H. destruct (String.eqb k k') eqn:E; [|reflexivity].
  apply compare_eqb in E; congruence.
Qed.

Lemma compare_gt_neq (k k' : string) :
  String.compare k k' = Gt -> String.eqb k k' = false.
Proof.
  intros H. destruct (String.eqb k k') eqn:E; [|reflexivity].
  apply compare_eqb in E; congruence.
Qed.

Lemma ascii_compare_lt_trans (a b c : ascii) :
  Ascii.compare a b = Lt -> Ascii.compare b c = Lt -> Ascii.compare a c = Lt.
Proof.
  unfold Ascii.compare; rewrite !N.compare_lt_iff; lia.
Qed.

Lemma compare_lt_trans (a b c : string) :
  String.compare a b = Lt -> String.compare b c = Lt -> String.compare a c = Lt.
Proof.
  revert b c; induction a as [|x a IH]; intros [|y b] [|z c]; simpl;
    try congruence.
  destruct (Ascii.compare x y) eqn:Exy; try discriminate.
  - apply Ascii.compare_eq_iff in Exy; subst y.
    destruct (Ascii.compare x z); try congruence. apply IH.
  - intros _. destruct (Ascii.compare y z) eqn:Eyz; try discriminate.
    + apply Ascii.compare_eq_iff in Eyz; subst z. now rewrite Exy.
    + now rewrite (ascii_compare_lt_trans _ _ _ Exy Eyz).
Qed.

(** ** Facts about maps *)

Section MapFacts.
Context {V : Type}.
Implicit Types (m : smap V) (k : string) (v d : V).

Lemma map_get_set_same d k v m : map_get d k (map_set k v m) = v.
Proof.
  induction m as [|[k' v'] m IH]; simpl.
  - now rewrite String.eqb_refl.
  - destruct (String.compare k k') eqn:E; simpl.
    + now rewrite String.eqb_refl.
    + now rewrite String.eqb_refl.
    + now rewrite (compare_gt_neq _ _ E).
Qed.

Lemma map_get_set_other d k k0 v m :
  k0 <> k -> map_get d k0 (map_set k v m) = map_get d k0 m.
Proof.
  intros N. apply String.eqb_neq in N.
  induction m as [|[k' v'] m IH]; simpl.
  - now rewrite N.
  - destruct (String.compare k k') eqn:E; simpl.
    + apply String.compare_eq_iff in E; subst k'. now rewrite N.
    + now rewrite N.
    + now rewrite IH.
Qed.

Lemma map_get_set d k k0 v m :
  map_get d k0 (map_set k v m)
  = if String.eqb k0 k then v else map_get d k0 m.
Proof.
  destruct (String.eqb k0 k) eqn:E.
  - apply String.eqb_eq in E; subst; apply map_get_set_same.
  - apply String.eqb_neq in E; now apply map_get_set_other.
Qed.

Lemma In_map_set k v k0 v0 m :
  In (k0, v0) (map_set k v m) -> (k0, v0) = (k, v) \/ In (k0, v0) m.
Proof.
  induction m as [|[k' v'] m IH]; simpl.
  - intros [H|[]]; auto.
  - destruct (String.compare k k'); simpl; intuition.
Qed.

Lemma map_get_In d k m : In k (keys m) -> In (k, map_get d k m) m.
Proof.
  induction m as [|[k' v'] m IH]; simpl; [tauto|].
  intros H. destruct (String.eqb k k') eqn:E.
  - apply String.eqb_eq in E; subst; now left.
  - right; apply IH. destruct H as [H|H]; [|exact H].
    apply String.eqb_neq in E; congruence.
Qed.

Lemma map_get_cases d k m : map_get d k m = d \/ In (k, map_get d k m) m.
Proof.
  induction m as [|[k' v'] m IH]; simpl; [now left|].
  destruct (String.eqb k k') eqn:E.
  - apply String.eqb_eq in E; subst; right; now left.
  - destruct IH; auto.
Qed.

Lemma keys_map_set k v k0 m :
  In k0 (keys (map_set k v m)) <-> k0 = k \/ In k0 (keys m).
Proof.
  induction m as [|[k' v'] m IH]; simpl.
  - intuition.
  - destruct (String.compare k k') eqn:E; simpl.
    + apply String.compare_eq_iff in E; subst k'. intuition.
    + intuition.
    + rewrite IH. intuition.
Qed.

(** A key below the first key of a sorted map is absent from it. *)
Lemma key_sorted_below d k k' v' m :
  key_sorted ((k', v') :: m) -> String.compare k k' = Lt ->
  map_get d k ((k', v') :: m) = d.
Proof.
  revert k' v'; induction m as [|[k2 v2] m IH]; intros k' v' S L.
  - simpl. now rewrite (compare_lt_neq _ _ L).
  - inversion S; subst.
    change (map_get d k ((k', v') :: (k2, v2) :: m))
      with (if String.eqb k k' then v' else map_get d k ((k2, v2) :: m)).
    rewrite (compare_lt_neq _ _ L).
    apply IH; [assumption|]. eapply compare_lt_trans; eassumption.
Qed.

Lemma key_sorted_tail k v m : key_sorted ((k, v) :: m) -> key_sorted m.
Proof. inversion 1; subst; [constructor | assumption]. Qed.

Lemma key_sorted_set k v m : key_sorted m -> key_sorted (map_set k v m).
Proof.
  induction m as [|[k' v'] m IH]; intros S; simpl.
  - constructor.
  - destruct (String.compare k k') eqn:E.
    + apply String.compare_eq_iff in E; subst k'.
      inversion S; subst; constructor; assumption.
    + constructor; assumption.
    + assert (L : String.compare k' k = Lt).
      { rewrite String.compare_antisym, E; reflexivity. }
      specialize (IH (key_sorted_tail _ _ _ S)).
      destruct m as [|[k2 v2] m]; simpl in *.
      * constructor; [assumption | constructor].
      * inversion S; subst.
        destruct (String.compare k k2); constructor; assumption.
Qed.
End MapFacts.

(** ** Facts about int *)

Lemma wrap_int_small (z : Z) : (0 <= z <= INT_MAX)%Z -> wrap_int z = z.
Proof.
  unfold wrap_int, INT_MAX; intros H.
  rewrite Z.mod_small; lia.
Qed.

(** ** Facts about word counts *)

Lemma vsum_set (k : string) (v : Z) (m : smap Z) :
  key_sorted m ->
  vsum (map_set k v m) = (vsum m - map_get 0 k m + v)%Z.
Proof.
  induction m as [|[k' v'] m IH]; intros S.
  - simpl; lia.
  - cbn [map_set]. destruct (String.compare k k') eqn:E.
    + apply String.compare_eq_iff in E; subst k'.
      simpl. rewrite String.eqb_refl. lia.
    + rewrite (key_sorted_below 0%Z k k' v' m S E). simpl. lia.
    + simpl. rewrite (compare_gt_neq _ _ E).
      rewrite (IH (key_sorted_tail _ _ _ S)). lia.
Qed.

Lemma map_get_le_vsum (k : string) (m : smap Z) :
  (forall k' v', In (k', v') m -> (0 <= v')%Z) ->
  (0 <= map_get 0 k m <= vsum m)%Z.
Proof.
  induction m as [|[k' v'] m IH]; intros P; simpl; [lia|].
  assert (0 <= v')%Z by (apply (P k'); now left).
  assert (0 <= map_get 0 k m <= vsum m)%Z
    by (apply IH; intros; eapply P; right; eassumption).
  destruct (String.eqb k k'); lia.
Qed.

Lemma total_words_from (m : smap Z) (a : Z) :
  (forall k v, In (k, v) m -> (0 <= v)%Z) ->
  (0 <= a)%Z -> (a + vsum m <= INT_MAX)%Z ->
  fold_left (fun nWords it => wrap_int (nWords + snd it)) m a = (a + vsum m)%Z.
Proof.
  revert a; induction m as [|[k v] m IH]; intros a P A B; simpl in *.
  - lia.
  - assert (0 <= v)%Z by (apply (P k); now left).
    assert (0 <= map_get 0 EmptyString m <= vsum m)%Z.
    { apply map_get_le_vsum. intros; eapply P; right; eassumption. }
    rewrite wrap_int_small by lia.
    rewrite IH; try lia. intros; eapply P; right; eassumption.
Qed.

Lemma total_words_vsum (m : smap Z) (n : Z) :
  counts_ok m n -> (n <= INT_MAX)%Z -> total_words m = n.
Proof.
  intros (S & P & E) B. unfold total_words.
  rewrite total_words_from; try lia.
  intros k v I; specialize (P k v I); lia.
Qed.

Lemma occurrences_cons (w x : string) (ws : list string) :
  occurrences w (x :: ws)
  = ((if (nonempty x && String.eqb w x)%bool then 1 else 0) + occurrences w ws)%Z.
Proof.
  unfold occurrences; simpl. destruct (nonempty x); simpl; [|reflexivity].
  destruct (string_dec x w) as [->|N].
  - rewrite String.eqb_refl. lia.
  - assert (String.eqb w x = false) by (apply String.eqb_neq; congruence).
    rewrite H. lia.
Qed.

(** One turn of the loop of getUniqueWords, away from overflow. *)
Lemma count_word_ok (m : smap Z) (n : Z) (word : string) :
  counts_ok m n -> (n < INT_MAX)%Z ->
  counts_ok (count_word m word) (n + if nonempty word then 1 else 0)
  /\ forall w, map_get 0%Z w (count_word m word)
               = (map_get 0 w m
                  + if (nonempty word && String.eqb w word)%bool then 1 else 0)%Z.
Proof.
  intros (S & P & E) B. unfold count_word, nonempty.
  destruct (String.eqb word EmptyString) eqn:W; simpl.
  - split; [repeat split; auto; lia | intros; lia].
  - destruct (Z.eqb (map_get 0%Z word m) 0) eqn:C.
    + apply Z.eqb_eq in C. split.
      * repeat split.
        -- now apply key_sorted_set.
        -- intros k v I. apply In_map_set in I as [I|I].
           ++ inversion I; lia.
           ++ eauto.
        -- rewrite vsum_set by assumption. lia.
      * intros w. rewrite map_get_set.
        destruct (String.eqb w word) eqn:Ew; [|lia].
        apply String.eqb_eq in Ew; subst; lia.
    + apply Z.eqb_neq in C.
      assert (G : (1 <= map_get 0 word m <= vsum m)%Z).
      { split.
        - destruct (map_get_cases 0%Z word m) as [Z0|I]; [congruence|].
          eapply P; eassumption.
        - apply map_get_le_vsum. intros k v I; specialize (P k v I); lia. }
      rewrite wrap_int_small by lia. split.
      * repeat split.
        -- now apply key_sorted_set.
        -- intros k v I. apply In_map_set in I as [I|I].
           ++ inversion I; lia.
           ++ eauto.
        -- rewrite vsum_set by assumption. lia.
      * intros w. rewrite map_get_set.
        destruct (String.eqb w word) eqn:Ew; [|lia].
        apply String.eqb_eq in Ew; subst; lia.
Qed.

Lemma fold_count_word_ok (ws : list string) :
  forall (m : smap Z) (n : Z),
    counts_ok m n ->
    (n + Z.of_nat (List.length (filter nonempty ws)) <= INT_MAX)%Z ->
    counts_ok (fold_left count_word ws m)
              (n + Z.of_nat (List.length (filter nonempty ws)))
    /\ forall w, map_get 0%Z w (fold_left count_word ws m)
                 = (map_get 0 w m + occurrences w ws)%Z.
Proof.
  induction ws as [|x ws IH]; intros m n OK B.
  - simpl. rewrite Z.add_0_r. split; [assumption|].
    intros w. unfold occurrences; simpl; lia.
  - simpl fold_left.
    assert (L : (Z.of_nat (List.length (filter nonempty (x :: ws)))
                 = (if nonempty x then 1 else 0)
                   + Z.of_nat (List.length (filter nonempty ws)))%Z).
    { simpl. destruct (nonempty x); simpl List.length; lia. }
    rewrite L in *.
    assert (n < INT_MAX \/ nonempty x = false)%Z as [Lt|Em].
    { destruct (nonempty x); [left; lia | now right]. }
    + destruct (count_word_ok m n x OK Lt) as (OK1 & G1).
      destruct (IH _ _ OK1) as (OK2 & G2); [lia|].
      split.
      * now rewrite Z.add_assoc.
      * intros w. rewrite G2, G1, occurrences_cons. lia.
    + assert (Cx : count_word m x = m).
      { unfold count_word. unfold nonempty in Em.
        apply negb_false_iff in Em. now rewrite Em. }
      rewrite Cx, Em in *. simpl in *.
      destruct (IH _ _ OK) as (OK2 & G2); [lia|].
      split; [assumption|].
      intros w. rewrite G2, occurrences_cons, Em. simpl. lia.
Qed.

Lemma string_length_append (a b : string) :
  String.length (a ++ b) = (String.length a + String.length b)%nat.
Proof. induction a as [|c a IH]; simpl; [reflexivity | now rewrite IH]. Qed.

(** Every non-empty word takes at least one character of the text. *)
Lemma getline_loop_bound (s word : string) :
  (List.length (filter nonempty (getline_loop word s))
   <= String.length word + String.length s)%nat.
Proof.
  revert word; induction s as [|c s IH]; intros word; simpl.
  - destruct word; simpl; lia.
  - destruct (Ascii.eqb c " "%char).
    + simpl. specialize (IH EmptyString). simpl in IH.
      destruct word; simpl; lia.
    + specialize (IH (word ++ String c EmptyString)).
      rewrite string_length_append in IH. simpl in IH. lia.
Qed.

Lemma words_of_bound (text : string) :
  (List.length (words_of text) <= String.length text)%nat.
Proof.
  unfold words_of. fold nonempty.
  pose proof (getline_loop_bound (removePunctuation text) EmptyString) as H.
  rewrite removePunctuation_length in H. exact H.
Qed.

(** The map getUniqueWords returns, for a text whose length fits in int. *)
Lemma getUniqueWords_ok (text : string) :
  (Z.of_nat (String.length text) <= INT_MAX)%Z ->
  counts_ok (getUniqueWords text) (Z.of_nat (List.length (words_of text)))
  /\ forall w, map_get 0%Z w (getUniqueWords text)
               = Z.of_nat (count_occ string_dec (words_of text) w).
Proof.
  intros B. pose proof (words_of_bound text) as L.
  unfold getUniqueWords, words_of in *. fold nonempty in *.
  destruct (fold_count_word_ok
              (getline_loop EmptyString (removePunctuation text)) [] 0%Z)
    as (OK & G).
  - repeat split; [constructor | intros k v []].
  - lia.
  - split; [exact OK|]. intros w. rewrite G. reflexivity.
Qed.

(** A word has a non-zero count exactly when it occurs in the text. *)
Lemma word_counted_iff (text w : string) :
  (Z.of_nat (String.length text) <= INT_MAX)%Z ->
  map_get 0%Z w (getUniqueWords text) <> 0%Z <-> In w (words_of text).
Proof.
  intros B. destruct (getUniqueWords_ok text B) as (_ & Occ). rewrite Occ.
  rewrite (count_occ_In string_dec). lia.
Qed.

(** ** Facts about double *)

Lemma nonzero_true (x : R) : x <> 0%R -> nonzero x = true.
Proof. unfold nonzero; destruct (Req_dec_T x 0); tauto. Qed.

Lemma nonzero_false (x : R) : x = 0%R -> nonzero x = false.
Proof. unfold nonzero; destruct (Req_dec_T x 0); tauto. Qed.

Lemma nonzero_spec (x : R) : nonzero x = false <-> x = 0%R.
Proof.
  unfold nonzero; destruct (Req_dec_T x 0); split; intros; congruence.
Qed.

Lemma Rgeb_true (x y : R) : (y <= x)%R -> Rgeb x y = true.
Proof. unfold Rgeb; destruct (Rge_dec x y); [reflexivity | lra]. Qed.

Lemma Rgeb_false (x y : R) : (x < y)%R -> Rgeb x y = false.
Proof. unfold Rgeb; destruct (Rge_dec x y); [lra | reflexivity]. Qed.

(** ** Loops that fill a map, one key per reference word *)

Lemma existsb_keys (w : string) (refWords : smap Z) :
  In w (keys refWords) -> existsb (String.eqb w) (keys refWords) = true.
Proof.
  intros I. apply existsb_exists. exists w. split; [assumption|].
  apply String.eqb_refl.
Qed.

Section FillLoop.
Variable step : smap R -> string * Z -> smap R.
Variable f : string -> R.
Hypothesis step_get : forall cc it w,
  map_get 0%R w (step cc it)
  = if String.eqb w (fst it) then f (fst it) else map_get 0%R w cc.

Lemma fill_loop_get (refWords : smap Z) :
  forall (acc : smap R) (w : string),
    map_get 0%R w (fold_left step refWords acc)
    = if existsb (String.eqb w) (keys refWords) then f w
      else map_get 0%R w acc.
Proof.
  induction refWords as [|it rest IH]; intros acc w; simpl.
  - reflexivity.
  - rewrite IH, step_get.
    destruct (String.eqb w (fst it)) eqn:E; simpl.
    + apply String.eqb_eq in E; subst w.
      now destruct (existsb (String.eqb (fst it)) (keys rest)).
    + reflexivity.
Qed.

Lemma fill_loop_key (refWords : smap Z) (w : string) :
  In w (keys refWords) ->
  map_get 0%R w (fold_left step refWords []) = f w.
Proof. intros I. now rewrite fill_loop_get, existsb_keys. Qed.
End FillLoop.

(** ** Facts about computeTF *)

Lemma tf_step_get (wordsD : smap Z) (nWords : Z) (cc : smap R)
    (it : string * Z) (w : string) :
  map_get 0%R w (tf_step wordsD nWords cc it)
  = if String.eqb w (fst it)
    then (IZR (map_get 0%Z (fst it) wordsD) / IZR nWords)%R
    else map_get 0%R w cc.
Proof.
  unfold tf_step.
  destruct (Z.eqb (map_get 0%Z (fst it) wordsD) 0) eqn:C;
    rewrite map_get_set, map_get_set_same;
    destruct (String.eqb w (fst it)) eqn:E; try reflexivity.
  - apply Z.eqb_eq in C. now rewrite C.
  - now rewrite map_get_set, E.
  - now rewrite map_get_set, E.
Qed.

(** The cell the TF table holds for a reference word. *)
Lemma tf_row_get (refWords : smap Z) (doc w : string) :
  In w (keys refWords) ->
  map_get 0%R w (tf_row refWords doc)
  = (IZR (map_get 0%Z w (getUniqueWords doc))
     / IZR (total_words (getUniqueWords doc)))%R.
Proof.
  intros I. unfold tf_row.
  apply (fill_loop_key _
           (fun w => (IZR (map_get 0%Z w (getUniqueWords doc))
                      / IZR (total_words (getUniqueWords doc)))%R)).
  - intros; apply tf_step_get.
  - assumption.
Qed.

(** ** Facts about computeIDF *)

Lemma count_docs_from (rWord : string) (Docs : list string) (a : R) :
  fold_left
    (fun nOcc doc =>
       if Z.eqb (map_get 0%Z rWord (getUniqueWords doc)) 0
       then nOcc else (nOcc + 1)%R)
    Docs a
  = (a + INR (docFreq rWord Docs))%R.
Proof.
  revert a; unfold docFreq; induction Docs as [|doc Docs IH]; intros a.
  - simpl. lra.
  - cbn [fold_left filter]. rewrite IH.
    destruct (Z.eqb (map_get 0%Z rWord (getUniqueWords doc)) 0).
    + reflexivity.
    + cbn [negb List.length]. rewrite S_INR. lra.
Qed.

Lemma count_docs_docFreq (rWord : string) (Docs : list string) :
  count_docs rWord Docs = INR (docFreq rWord Docs).
Proof. unfold count_docs. rewrite count_docs_from. lra. Qed.

Lemma docFreq_le (w : string) (Docs : list string) :
  (docFreq w Docs <= List.length Docs)%nat.
Proof. unfold docFreq. apply filter_length_le. Qed.

Lemma computeIDF_get (refWords : smap Z) (Docs : list string) (w : string) :
  In w (keys refWords) ->
  map_get 0%R w (computeIDF refWords Docs)
  = ln (INR (List.length Docs) / INR (docFreq w Docs)).
Proof.
  intros I. unfold computeIDF.
  rewrite (fill_loop_key _
             (fun w => ln (IZR (Z.of_nat (List.length Docs))
                           / count_docs w Docs))).
  - now rewrite count_docs_docFreq, <- INR_IZR_INZ.
  - intros; apply map_get_set.
  - assumption.
Qed.

(** ** Facts about computeTFIDF *)

Lemma tfidf_step_get (tf_i idf cc : smap R) (it : string * Z) (w : string) :
  map_get 0%R w (tfidf_step tf_i idf cc it)
  = if String.eqb w (fst it)
    then (if (negb (nonzero (map_get 0%R (fst it) tf_i))
              || negb (nonzero (map_get 0%R (fst it) idf)))%bool
          then 0%R
          else (map_get 0%R (fst it) tf_i * map_get 0%R (fst it) idf)%R)
    else map_get 0%R w cc.
Proof.
  unfold tfidf_step.
  destruct (negb (nonzero (map_get 0%R (fst it) tf_i))
            || negb (nonzero (map_get 0%R (fst it) idf)))%bool;
    apply map_get_set.
Qed.

Lemma computeTFIDF_nth (refWords : smap Z) (tf : list (smap R))
    (idf : smap R) (i : nat) :
  (i < List.length tf)%nat ->
  nth i (computeTFIDF refWords tf idf) []
  = fold_left (tfidf_step (nth i tf []) idf) refWords [].
Proof.
  intros L. unfold computeTFIDF.
  rewrite (nth_indep _ [] (fold_left (tfidf_step [] idf) refWords [])).
  - apply (map_nth (fun tf_i => fold_left (tfidf_step tf_i idf) refWords [])).
  - now rewrite length_map.
Qed.

(** The cell the TF-IDF table holds for a reference word, as the code
    branches. *)
Lemma computeTFIDF_get (refWords : smap Z) (tf : list (smap R))
    (idf : smap R) (i : nat) (w : string) :
  (i < List.length tf)%nat -> In w (keys refWords) ->
  map_get 0%R w (nth i (computeTFIDF refWords tf idf) [])
  = if (negb (nonzero (map_get 0%R w (nth i tf [])))
        || negb (nonzero (map_get 0%R w idf)))%bool
    then 0%R
    else (map_get 0%R w (nth i tf []) * map_get 0%R w idf)%R.
Proof.
  intros L I. rewrite computeTFIDF_nth by assumption.
  apply (fill_loop_key _
           (fun w => if (negb (nonzero (map_get 0%R w (nth i tf [])))
                         || negb (nonzero (map_get 0%R w idf)))%bool
                     then 0%R
                     else (map_get 0%R w (nth i tf []) * map_get 0%R w idf)%R)).
  - intros; apply tfidf_step_get.
  - assumption.
Qed.

(** In exact arithmetic the short-circuit agrees with the product. *)
Lemma computeTFIDF_product (refWords : smap Z) (tf : list (smap R))
    (idf : smap R) (i : nat) (w : string) :
  (i < List.length tf)%nat -> In w (keys refWords) ->
  map_get 0%R w (nth i (computeTFIDF refWords tf idf) [])
  = (map_get 0%R w (nth i tf []) * map_get 0%R w idf)%R.
Proof.
  intros L I. rewrite computeTFIDF_get by assumption.
  destruct (nonzero (map_get 0%R w (nth i tf []))) eqn:A;
    destruct (nonzero (map_get 0%R w idf)) eqn:B; simpl; try reflexivity.
  - apply nonzero_spec in B. rewrite B. lra.
  - apply nonzero_spec in A. rewrite A. lra.
  - apply nonzero_spec in A. rewrite A. lra.
Qed.

(** ** Facts about getMostSimilarDocument *)

Lemma doc_sum_from (refWords : smap Z) (row : smap R) (a : R) :
  fold_left
    (fun sum it =>
       if nonzero (map_get 0%R (fst it) row)
       then (sum + map_get 0%R (fst it) row)%R else sum)
    refWords a
  = fold_left (fun sum it => (sum + map_get 0%R (fst it) row)%R) refWords a.
Proof.
  revert a; induction refWords as [|it rest IH]; intros a; simpl.
  - reflexivity.
  - destruct (nonzero (map_get 0%R (fst it) row)) eqn:E.
    + apply IH.
    + apply nonzero_spec in E. rewrite IH. f_equal. rewrite E. lra.
Qed.

(** Skipping the zero cells does not change the sum. *)
Lemma doc_sum_cell_sum (refWords : smap Z) (row : smap R) :
  doc_sum refWords row = cell_sum refWords row.
Proof. apply doc_sum_from. Qed.

Lemma cell_sum_nonneg_from (refWords : smap Z) (row : smap R) (a : R) :
  (forall k v, In (k, v) row -> (0 <= v)%R) -> (0 <= a)%R ->
  (0 <= fold_left (fun sum it => (sum + map_get 0%R (fst it) row)%R)
                  refWords a)%R.
Proof.
  intros P; revert a; induction refWords as [|it rest IH]; intros a A; simpl.
  - assumption.
  - apply IH.
    destruct (map_get_cases 0%R (fst it) row) as [E|I].
    + rewrite E. lra.
    + specialize (P _ _ I). lra.
Qed.

Lemma score_nonneg (refWords : smap Z) (tfidf : list (smap R)) (k : nat) :
  nonneg_scores tfidf -> (0 <= score refWords tfidf k)%R.
Proof.
  intros P. unfold score. rewrite doc_sum_cell_sum.
  apply cell_sum_nonneg_from; [|lra].
  destruct (Nat.lt_ge_cases k (List.length tfidf)) as [L|G].
  - intros k0 v I. eapply P; [apply nth_In; eassumption | eassumption].
  - rewrite nth_overflow by assumption. intros k0 v [].
Qed.

Lemma rank_step_inv (refWords : smap Z) (tfidf : list (smap R))
    (m : nat) (st : rank_state) :
  rank_inv refWords tfidf m st ->
  rank_inv refWords tfidf (S m) (rank_step refWords tfidf st (S m)).
Proof.
  unfold rank_step. fold (score refWords tfidf (S m)).
  set (s := score refWords tfidf (S m)).
  assert (Last : forall k (P : Prop), (1 <= k <= S m)%nat ->
            (k = S m -> P) -> ((1 <= k <= m)%nat -> P) -> P).
  { intros k P K A B. destruct (Nat.eq_dec k (S m)); [auto | apply B; lia]. }
  intros [(I0 & M0 & N)|(i & Ri & Ii & Mi & Pi & Le & Lt)].
  - rewrite M0. unfold Rgeb. destruct (Rge_dec s 0) as [G|G].
    + right. exists (S m). cbn [maxId maxSum]. fold s.
      split; [lia|]. split; [reflexivity|]. split; [reflexivity|].
      split; [lra|]. split.
      * intros k K. apply (Last k); [assumption | intros ->; fold s; lra |].
        intros K'. specialize (N k K'). lra.
      * intros k K; lia.
    + left. split; [assumption|]. split; [assumption|].
      intros k K. apply (Last k); [assumption | intros ->; fold s; lra |].
      apply N.
  - rewrite Mi. unfold Rgeb.
    destruct (Rge_dec s (score refWords tfidf i)) as [G|G].
    + right. exists (S m). cbn [maxId maxSum]. fold s.
      split; [lia|]. split; [reflexivity|]. split; [reflexivity|].
      split; [lra|]. split.
      * intros k K. apply (Last k); [assumption | intros ->; fold s; lra |].
        intros K'. specialize (Le k K'). lra.
      * intros k K; lia.
    + right. exists i.
      split; [lia|]. split; [assumption|]. split; [assumption|].
      split; [assumption|]. split.
      * intros k K. apply (Last k); [assumption | intros ->; fold s; lra |].
        apply Le.
      * intros k K. apply (Last k); [lia | intros ->; fold s; lra |].
        intros K'. apply Lt; lia.
Qed.

Lemma rank_loop_inv (refWords : smap Z) (tfidf : list (smap R)) (m : nat) :
  rank_inv refWords tfidf m
    (fold_left (rank_step refWords tfidf) (seq 1 m) (mkRank 0 0)).
Proof.
  induction m as [|m IH].
  - left. simpl. repeat split. intros k K; lia.
  - rewrite seq_S, fold_left_app. cbn [fold_left Nat.add].
    now apply rank_step_inv.
Qed.

(** What the loop has established when it ends. *)
Lemma rank_result (refWords : smap Z) (tfidf : list (smap R)) :
  (getMostSimilarDocument refWords tfidf = 0%Z /\
   forall k, (1 <= k < List.length tfidf)%nat ->
             (score refWords tfidf k < 0)%R)
  \/
  (exists i, winner refWords tfidf i /\
             getMostSimilarDocument refWords tfidf = (Z.of_nat i + 1)%Z).
Proof.
  unfold getMostSimilarDocument.
  destruct (rank_loop_inv refWords tfidf (List.length tfidf - 1))
    as [(I0 & _ & N)|(i & Ri & Ii & _ & Pi & Le & Lt)].
  - left. split; [assumption|]. intros k K; apply N; lia.
  - right. exists i. split; [|assumption].
    repeat split; try lia; try assumption.
    + intros k K; apply Le; lia.
    + intros k K; apply Lt; lia.
Qed.

Lemma winner_unique (refWords : smap Z) (tfidf : list (smap R)) (i j : nat) :
  winner refWords tfidf i -> winner refWords tfidf j -> i = j.
Proof.
  intros (Ri & _ & Li & Si) (Rj & _ & Lj & Sj).
  destruct (Nat.lt_trichotomy i j) as [L|[E|L]]; [|assumption|].
  - specialize (Si j ltac:(lia)). specialize (Lj i Ri). lra.
  - specialize (Sj i ltac:(lia)). specialize (Li j Rj). lra.
Qed.

Lemma rank_result_winner (refWords : smap Z) (tfidf : list (smap R)) (i : nat) :
  winner refWords tfidf i ->
  getMostSimilarDocument refWords tfidf = (Z.of_nat i + 1)%Z.
Proof.
  intros W. destruct (rank_result refWords tfidf) as [(_ & N)|(j & Wj & E)].
  - destruct W as (Ri & Pi & _). specialize (N i Ri). lra.
  - now rewrite (winner_unique _ _ _ _ W Wj).
Qed.

Lemma rank_result_exists (refWords : smap Z) (tfidf : list (smap R)) (k : nat) :
  (1 <= k < List.length tfidf)%nat -> (0 <= score refWords tfidf k)%R ->
  exists i, winner refWords tfidf i /\
            getMostSimilarDocument refWords tfidf = (Z.of_nat i + 1)%Z.
Proof.
  intros K P. destruct (rank_result refWords tfidf) as [(_ & N)|H].
  - specialize (N k K). lra.
  - exact H.
Qed.

(** Scores below the initial maximum select nothing, also with two
    documents or more. *)
Example rank_negative_scores :
  getMostSimilarDocument [("w", 1%Z)] [[("w", 1%R)]; [("w", (-1)%R)]] = 0%Z.
Proof.
  destruct (rank_result [("w", 1%Z)] [[("w", 1%R)]; [("w", (-1)%R)]])
    as [(E & _)|(i & (Ri & P & _) & _)]; [exact E|].
  simpl in Ri. assert (i = 1)%nat as -> by lia.
  unfold score in P. rewrite doc_sum_cell_sum in P.
  unfold cell_sum in P. simpl in P. lra.
Qed.

Lemma fold_left_ext_in {A B : Type} (f g : A -> B -> A) (l : list B) :
  (forall a b, In b l -> f a b = g a b) ->
  forall a, fold_left f l a = fold_left g l a.
Proof.
  induction l as [|b l IH]; intros E a; simpl.
  - reflexivity.
  - rewrite E by now left. apply IH. intros; apply E; now right.
Qed.

(** The row at index 0 is never read. *)
Lemma rank_ignores_first (refWords : smap Z) (row0 row0' : smap R)
    (rest : list (smap R)) :
  getMostSimilarDocument refWords (row0' :: rest)
  = getMostSimilarDocument refWords (row0 :: rest).
Proof.
  unfold getMostSimilarDocument. cbn [List.length]. f_equal.
  apply fold_left_ext_in. intros st i I.
  apply in_seq in I. unfold rank_step.
  destruct i as [|i]; [lia|]. reflexivity.
Qed.

Lemma computeTF_nth (refWords : smap Z) (Docs : list string) (i : nat) :
  (i < List.length Docs)%nat ->
  nth i (computeTF refWords Docs) [] = tf_row refWords (nth i Docs EmptyString).
Proof.
  intros L. unfold computeTF.
  rewrite (nth_indep _ [] (tf_row refWords EmptyString)).
  - apply map_nth.
  - now rewrite length_map.
Qed.

Lemma map_get_absent {V : Type} (d : V) (k : string) (m : smap V) :
  ~ In k (keys m) -> map_get d k m = d.
Proof.
  intros N. destruct (map_get_cases d k m) as [E|I]; [assumption|].
  exfalso; apply N. unfold keys. apply in_map_iff.
  exists (k, map_get d k m). now split.
Qed.

(** ** The tables of the pipeline hold no negative score *)

Section AllValues.
Context {V : Type} (Q : V -> Prop).

Lemma map_set_all (k : string) (v : V) (m : smap V) :
  Q v -> (forall k' v', In (k', v') m -> Q v') ->
  forall k' v', In (k', v') (map_set k v m) -> Q v'.
Proof.
  intros Qv Qm k' v' I. apply In_map_set in I as [I|I].
  - inversion I; subst; assumption.
  - eapply Qm; eassumption.
Qed.

Lemma map_get_all (d : V) (k : string) (m : smap V) :
  Q d -> (forall k' v', In (k', v') m -> Q v') -> Q (map_get d k m).
Proof.
  intros Qd Qm. destruct (map_get_cases d k m) as [E|I].
  - now rewrite E.
  - eapply Qm; eassumption.
Qed.

Lemma fold_all {B : Type} (step : smap V -> B -> smap V) (l : list B) :
  (forall cc b, (forall k v, In (k, v) cc -> Q v) ->
                forall k v, In (k, v) (step cc b) -> Q v) ->
  forall acc, (forall k v, In (k, v) acc -> Q v) ->
              forall k v, In (k, v) (fold_left step l acc) -> Q v.
Proof.
  intros St; induction l as [|b l IH]; intros acc A; simpl.
  - exact A.
  - apply IH. now apply St.
Qed.
End AllValues.

Lemma tf_row_nonneg (refWords : smap Z) (doc : string) :
  (Z.of_nat (String.length doc) <= INT_MAX)%Z ->
  forall k v, In (k, v) (tf_row refWords doc) -> (0 <= v)%R.
Proof.
  intros B. destruct (getUniqueWords_ok doc B) as (OK & _).
  pose proof (words_of_bound doc) as WB.
  assert (T : (0 <= total_words (getUniqueWords doc))%Z).
  { rewrite (total_words_vsum _ _ OK); lia. }
  destruct OK as (_ & P & _).
  assert (C : forall w, (0 <= IZR (map_get 0%Z w (getUniqueWords doc)))%R).
  { intros w. apply IZR_le.
    apply (map_get_all (fun z => 0 <= z)%Z); [lia|].
    intros k' v' I; specialize (P k' v' I); lia. }
  assert (D : forall x, (0 <= x)%R ->
            (0 <= x / IZR (total_words (getUniqueWords doc)))%R).
  { intros x X.
    destruct (Z.eq_dec (total_words (getUniqueWords doc)) 0) as [E|N].
    - rewrite E, Rdiv_0_r. lra.
    - apply Rle_mult_inv_pos; [assumption|]. apply IZR_lt. lia. }
  unfold tf_row.
  apply (fold_all (fun v => 0 <= v)%R); [|intros k v []].
  intros cc it Qc. unfold tf_step.
  destruct (Z.eqb (map_get 0%Z (fst it) (getUniqueWords doc)) 0);
    rewrite map_get_set_same;
    repeat (apply map_set_all; try assumption);
    try apply D; auto; try lra.
Qed.

Lemma ln_ratio_nonneg (n d : nat) :
  (d <= n)%nat -> (0 <= ln (INR n / INR d))%R.
Proof.
  intros L. destruct d as [|d].
  - simpl INR. rewrite Rdiv_0_r. unfold ln.
    destruct (Rlt_dec 0 0) as [A|A];
      [exfalso; exact (Rlt_irrefl 0 A) | apply Rle_refl].
  - assert (0 < INR (S d))%R by (apply lt_0_INR; lia).
    assert (INR (S d) <= INR n)%R by now apply le_INR.
    assert (1 <= INR n / INR (S d))%R.
    { apply (Rmult_le_reg_r (INR (S d))); [assumption|].
      unfold Rdiv. rewrite Rmult_assoc, Rinv_l by lra. lra. }
    destruct (Req_dec_T (INR n / INR (S d)) 1) as [E|N].
    + rewrite E, ln_1. lra.
    + rewrite <- ln_1. left. apply ln_increasing; lra.
Qed.

Lemma computeIDF_nonneg (refWords : smap Z) (Docs : list string) :
  forall k v, In (k, v) (computeIDF refWords Docs) -> (0 <= v)%R.
Proof.
  unfold computeIDF.
  apply (fold_all (fun v => 0 <= v)%R); [|intros k v []].
  intros cc it Qc. apply map_set_all; [|assumption].
  rewrite count_docs_docFreq, <- INR_IZR_INZ.
  apply ln_ratio_nonneg, docFreq_le.
Qed.

(** Every table the pipeline hands to getMostSimilarDocument has
    non-negative scores (documents short enough for int). *)
Lemma computeTFIDF_nonneg (refWords : smap Z) (Docs : list string) :
  (forall doc, In doc Docs -> (Z.of_nat (String.length doc) <= INT_MAX)%Z) ->
  nonneg_scores
    (computeTFIDF refWords (computeTF refWords Docs) (computeIDF refWords Docs)).
Proof.
  intros B row k v IR. unfold computeTFIDF, computeTF in IR.
  rewrite map_map in IR. apply in_map_iff in IR as (doc & <- & ID).
  revert k v. apply (fold_all (fun v => 0 <= v)%R); [|intros k v []].
  intros cc it Qc. unfold tfidf_step.
  destruct (negb (nonzero (map_get 0%R (fst it) (tf_row refWords doc)))
            || negb (nonzero (map_get 0%R (fst it)
                                (computeIDF refWords Docs))))%bool;
    apply map_set_all; try assumption; try lra.
  apply Rmult_le_pos.
  - apply (map_get_all (fun v => 0 <= v)%R); [lra|].
    now apply tf_row_nonneg, B.
  - apply (map_get_all (fun v => 0 <= v)%R); [lra|].
    apply computeIDF_nonneg.
Qed.

(** * The claims *)

(** ** Normalisation *)

(** C8, at the input where the code departs from it: removePunctuation
    also replaces the NUL character by a space, because its loop runs over
    all [sizeof(punctuation)] = 9 elements of the array, the eight
    characters of the literal and the terminator.  The claim lists only
    the eight and leaves all other characters unchanged. *)
Theorem removePunctuation_replaces_nul :
  sizeof_punctuation = S (List.length punctuation_literal) /\
  existsb (Ascii.eqb Ascii.zero) punctuation_literal = false /\
  removePunctuation (String "A" (String Ascii.zero (String "b" EmptyString)))
  = "a b".
Proof. repeat split. Qed.

(** C9: normalisation is idempotent, removePunctuation applied to its own
    result returns that result. *)
Theorem removePunctuation_idempotent (s : string) :
  removePunctuation (removePunctuation s) = removePunctuation s.
Proof.
  rewrite !removePunctuation_pointwise, transform_compose.
  apply transform_ext, normChar_idem.
Qed.

(** ** The ranking loop *)

(** C10: on a table of at most one document the loop body never runs and
    getMostSimilarDocument returns 0, which is no document's id. *)
Theorem getMostSimilarDocument_single (refWords : smap Z)
    (tfidf : list (smap R)) :
  (List.length tfidf <= 1)%nat ->
  getMostSimilarDocument refWords tfidf = 0%Z
  /\ forall i, (i < List.length tfidf)%nat ->
               getMostSimilarDocument refWords tfidf <> (Z.of_nat i + 1)%Z.
Proof.
  intros L. destruct tfidf as [|row [|row' rest]]; simpl in L; try lia.
  - split; [reflexivity|]. simpl; intros; lia.
  - split; [reflexivity|]. unfold getMostSimilarDocument; simpl; intros; lia.
Qed.

Lemma getMostSimilarDocument_single_witness :
  getMostSimilarDocument [("w", 1%Z)] [[("w", 1%R)]] = 0%Z.
Proof.
  refine (proj1 (getMostSimilarDocument_single [("w", 1%Z)] [[("w", 1%R)]] _)).
  simpl. apply le_n.
Defined.

(** ** The tables *)



(** C7: for a reference word found in at least one document, the IDF that
    computeIDF stores is the natural logarithm of the number of documents
    divided by the word's document frequency; it is 0 for a word found in
    every document. *)
Theorem computeIDF_value (refWords : smap Z) (Docs : list string) (w : string) :
  In w (keys refWords) -> (1 <= docFreq w Docs)%nat ->
  idf_cell refWords Docs w
  = ln (INR (List.length Docs) / INR (docFreq w Docs))
  /\ (docFreq w Docs = List.length Docs -> idf_cell refWords Docs w = 0%R).
Proof.
  intros I D. unfold idf_cell. rewrite computeIDF_get by assumption.
  split; [reflexivity|]. intros E. rewrite E.
  rewrite Rdiv_diag; [apply ln_1|].
  apply not_0_INR. lia.
Qed.

Lemma computeIDF_value_witness :
  idf_cell [("a", 1%Z); ("b", 1%Z)] ["a b"; "A!"] "a" = 0%R.
Proof.
  refine (proj2 (computeIDF_value [("a", 1%Z); ("b", 1%Z)] ["a b"; "A!"] "a"
                   _ _) _).
  - simpl. left. reflexivity.
  - vm_compute. apply le_S, le_n.
  - vm_compute. reflexivity.
Defined.

(** C4: when the document set contains the reference document, every
    word of the vocabulary getUniqueWords builds from it is found in at
    least one document, so [nOcc], the divisor in computeIDF, is the
    document frequency and is not zero.  (The reference document is taken
    short enough for its word counts to fit in int.) *)
Theorem reference_word_counted (Docs : list string) (ref w : string) :
  In ref Docs ->
  (Z.of_nat (String.length ref) <= INT_MAX)%Z ->
  In w (keys (getUniqueWords ref)) ->
  (1 <= docFreq w Docs)%nat
  /\ count_docs w Docs = INR (docFreq w Docs)
  /\ count_docs w Docs <> 0%R.
Proof.
  intros ID B K.
  destruct (getUniqueWords_ok ref B) as ((_ & P & _) & _).
  assert (C : (1 <= map_get 0%Z w (getUniqueWords ref))%Z).
  { eapply P. apply map_get_In. exact K. }
  assert (D : (1 <= docFreq w Docs)%nat).
  { unfold docFreq.
    assert (F : In ref (filter
               (fun doc => negb (Z.eqb (map_get 0%Z w (getUniqueWords doc)) 0))
               Docs)).
    { apply filter_In. split; [assumption|].
      apply negb_true_iff, Z.eqb_neq. lia. }
    destruct (filter _ Docs); [destruct F | simpl; lia]. }
  split; [assumption|]. split; [apply count_docs_docFreq|].
  rewrite count_docs_docFreq. apply not_0_INR. lia.
Qed.

Lemma reference_word_counted_witness :
  count_docs "apple" Docs <> 0%R.
Proof.
  refine (proj2 (proj2 (reference_word_counted Docs
                          "I'd... like, an! apple." "apple" _ _ _))).
  - left. reflexivity.
  - vm_compute. discriminate.
  - vm_compute. right. left. reflexivity.
Defined.

(** C6: for a document with at least one word (and short enough for the
    counts to fit in int) and a reference word, the TF computed by
    computeTF is the word's count in the document's own map, 0 when the
    word is absent, divided by the document's total word count; the total
    is the number of all words of the document, whether reference words or
    not, and the count is the number of occurrences of the word among
    them; so the TF lies between 0 and 1. *)
Theorem computeTF_value (refWords : smap Z) (Docs : list string)
    (i : nat) (w : string) :
  (i < List.length Docs)%nat -> In w (keys refWords) ->
  (Z.of_nat (String.length (nth i Docs EmptyString)) <= INT_MAX)%Z ->
  (0 < total_words (getUniqueWords (nth i Docs EmptyString)))%Z ->
  tf_cell refWords Docs i w
  = (IZR (map_get 0%Z w (getUniqueWords (nth i Docs EmptyString)))
     / IZR (total_words (getUniqueWords (nth i Docs EmptyString))))%R
  /\ total_words (getUniqueWords (nth i Docs EmptyString))
     = Z.of_nat (List.length (words_of (nth i Docs EmptyString)))
  /\ map_get 0%Z w (getUniqueWords (nth i Docs EmptyString))
     = Z.of_nat (count_occ string_dec (words_of (nth i Docs EmptyString)) w)
  /\ (0 <= tf_cell refWords Docs i w <= 1)%R.
Proof.
  intros L I B T. set (doc := nth i Docs EmptyString) in *.
  destruct (getUniqueWords_ok doc B) as (OK & Occ).
  pose proof (words_of_bound doc) as WB.
  assert (TW : total_words (getUniqueWords doc)
               = Z.of_nat (List.length (words_of doc))).
  { apply total_words_vsum; [assumption | lia]. }
  assert (E : tf_cell refWords Docs i w
              = (IZR (map_get 0%Z w (getUniqueWords doc))
                 / IZR (total_words (getUniqueWords doc)))%R).
  { unfold tf_cell. rewrite computeTF_nth by assumption.
    now apply tf_row_get. }
  split; [exact E|]. split; [exact TW|]. split; [apply Occ|].
  rewrite E.
  assert (C : (0 <= map_get 0%Z w (getUniqueWords doc)
               <= total_words (getUniqueWords doc))%Z).
  { destruct OK as (_ & P & V). rewrite TW, <- V.
    apply map_get_le_vsum. intros k v H; specialize (P k v H); lia. }
  assert (0 < IZR (total_words (getUniqueWords doc)))%R by now apply IZR_lt.
  assert (0 <= IZR (map_get 0%Z w (getUniqueWords doc)))%R
    by (apply IZR_le; lia).
  assert (IZR (map_get 0%Z w (getUniqueWords doc))
          <= IZR (total_words (getUniqueWords doc)))%R by (apply IZR_le; lia).
  split.
  - apply Rle_mult_inv_pos; assumption.
  - apply (Rmult_le_reg_r (IZR (total_words (getUniqueWords doc))));
      [assumption|].
    unfold Rdiv. rewrite Rmult_assoc, Rinv_l by lra. lra.
Qed.

Lemma computeTF_value_witness :
  (0 <= tf_cell [("an", 1%Z)] ["An apple, an orange."] 0 "an" <= 1)%R.
Proof.
  refine (proj2 (proj2 (proj2 (computeTF_value [("an", 1%Z)]
            ["An apple, an orange."] 0 "an" _ _ _ _)))).
  - simpl. apply le_n.
  - simpl. left. reflexivity.
  - vm_compute. discriminate.
  - vm_compute. reflexivity.
Defined.

(** ** The program on its corpus *)

Lemma main_refWords_value :
  main_refWords
  = [("an", 1%Z); ("apple", 1%Z); ("i'd", 1%Z); ("like", 1%Z)].
Proof. vm_compute. reflexivity. Qed.

Lemma main_tfidf_length : List.length main_tfidf = 4%nat.
Proof.
  unfold main_tfidf, computeTFIDF, main_tf, computeTF.
  rewrite !length_map. reflexivity.
Qed.

(** A cell of the table of main, before any arithmetic is carried out. *)
Lemma main_cell (k : nat) (w : string) :
  (k < 4)%nat -> In w (keys main_refWords) ->
  map_get 0%R w (nth k main_tfidf [])
  = (IZR (map_get 0%Z w (getUniqueWords (nth k Docs EmptyString)))
     / IZR (total_words (getUniqueWords (nth k Docs EmptyString)))
     * ln (IZR (Z.of_nat (List.length Docs))
           / IZR (Z.of_nat (docFreq w Docs))))%R.
Proof.
  intros L I. unfold main_tfidf.
  rewrite computeTFIDF_product;
    [| unfold main_tf, computeTF; rewrite length_map; exact L | exact I].
  unfold main_tf, main_idf.
  rewrite computeTF_nth by exact L.
  rewrite tf_row_get, computeIDF_get by exact I.
  now rewrite !INR_IZR_INZ.
Qed.

Ltac eval_ints :=
  repeat match goal with
  | |- context [IZR ?z] =>
      let v := eval vm_compute in z in progress change z with v
  end.

Lemma main_score (k : nat) :
  (k < 4)%nat ->
  score main_refWords main_tfidf k
  = (0 + map_get 0%R "an" (nth k main_tfidf [])
       + map_get 0%R "apple" (nth k main_tfidf [])
       + map_get 0%R "i'd" (nth k main_tfidf [])
       + map_get 0%R "like" (nth k main_tfidf []))%R.
Proof.
  intros L. unfold score. rewrite doc_sum_cell_sum.
  rewrite main_refWords_value. reflexivity.
Qed.

Lemma main_score_1 :
  score main_refWords main_tfidf 1 = (2 / 8 * ln (4 / 3))%R.
Proof.
  rewrite main_score by lia.
  rewrite !main_cell
    by (try lia; rewrite main_refWords_value; simpl; tauto).
  eval_ints. lra.
Qed.

Lemma main_score_2 :
  score main_refWords main_tfidf 2 = (3 / 7 * ln (4 / 3))%R.
Proof.
  rewrite main_score by lia.
  rewrite !main_cell
    by (try lia; rewrite main_refWords_value; simpl; tauto).
  eval_ints. lra.
Qed.

Lemma main_score_3 : score main_refWords main_tfidf 3 = 0%R.
Proof.
  rewrite main_score by lia.
  rewrite !main_cell
    by (try lia; rewrite main_refWords_value; simpl; tauto).
  eval_ints. lra.
Qed.

Lemma ln_4_3_pos : (0 < ln (4 / 3))%R.
Proof. rewrite <- ln_1. apply ln_increasing; lra. Qed.

(** The third document, at array index 2, wins on the corpus of main. *)
Lemma main_winner : winner main_refWords main_tfidf 2.
Proof.
  pose proof ln_4_3_pos as P.
  unfold winner. rewrite main_tfidf_length, main_score_2.
  split; [lia|]. split; [lra|]. split.
  - intros k K. assert (k = 1 \/ k = 2 \/ k = 3)%nat as [ -> | [ -> | -> ] ] by lia.
    + rewrite main_score_1. lra.
    + rewrite main_score_2. lra.
    + rewrite main_score_3. lra.
  - intros k K. assert (k = 3)%nat as -> by lia.
    rewrite main_score_3. lra.
Qed.

Lemma main_result_value : main_result = 3%Z.
Proof. unfold main_result. now rewrite (rank_result_winner _ _ 2 main_winner). Qed.

(** C1, as the code has it: on its four documents the program writes 3,
    the id of the document at array index 2 (Never compare an apple to an
    orange), whose summed score 3/7 ln(4/3) exceeds the 2/8 ln(4/3) of the
    document at index 1 and the 0 of the document at index 3. *)
Theorem main_prints_3 : main_result = 3%Z /\ main_stdout = "3".
Proof.
  unfold main_stdout. rewrite main_result_value. split; reflexivity.
Qed.

(** C1 as stated fails: the integer written is not 2. *)
Lemma main_does_not_print_2 : main_result <> 2%Z /\ main_stdout <> "2".
Proof.
  unfold main_stdout. rewrite main_result_value.
  split; intros H; discriminate H.
Qed.


(** * Further properties of the code *)

(** ** removePunctuation *)

Lemma get_transform (f : ascii -> ascii) (s : string) (i : nat) :
  String.get i (transform f s) = option_map f (String.get i s).
Proof.
  revert i; induction s as [|c s IH]; intros [|i]; simpl; auto.
Qed.

Lemma chars_transform (f : ascii -> ascii) (s : string) :
  chars (transform f s) = map f (chars s).
Proof.
  unfold chars; induction s as [|c s IH]; simpl; [reflexivity | now rewrite IH].
Qed.

Lemma normChar_clean (c : ascii) : clean_char (normChar c) = true.
Proof. destruct c as [[] [] [] [] [] [] [] []]; reflexivity. Qed.

Lemma clean_char_fixed (c : ascii) : clean_char c = true -> normChar c = c.
Proof.
  destruct c as [[] [] [] [] [] [] [] []]; intros H;
    try reflexivity; discriminate H.
Qed.

(** X1: removePunctuation works in place, character by character: the
    result has the length of the input, and its character at each index
    depends only on the input's character at that index (it is that
    character lower-cased, or a space when the lower-cased character is
    an element of the punctuation array). *)
Theorem removePunctuation_in_place (s : string) :
  String.length (removePunctuation s) = String.length s
  /\ forall i, String.get i (removePunctuation s)
               = option_map normChar (String.get i s).
Proof.
  rewrite removePunctuation_pointwise. split.
  - apply transform_length.
  - intros i. apply get_transform.
Qed.

(** X2: the result of removePunctuation holds no upper-case letter and
    none of the nine elements of the punctuation array. *)
Theorem removePunctuation_clean (s : string) :
  forallb clean_char (chars (removePunctuation s)) = true.
Proof.
  rewrite removePunctuation_pointwise, chars_transform.
  apply forallb_forall. intros c I.
  apply in_map_iff in I as (c' & <- & _). apply normChar_clean.
Qed.

Lemma transform_fixed (f : ascii -> ascii) (s : string) :
  transform f s = s <-> forall c, In c (chars s) -> f c = c.
Proof.
  unfold chars; induction s as [|c s IH]; simpl.
  - split; [intros _ c [] | reflexivity].
  - split.
    + intros H; inversion H as [[Hc Hs]]. rewrite Hc, Hs.
      intros c' [<-|I]; [assumption|]. now apply IH.
    + intros H. f_equal; [apply H; now left|].
      apply IH. intros c' I. apply H. now right.
Qed.

(** X3: the texts removePunctuation returns unchanged are exactly those
    made of clean characters only (no upper-case letter, no element of
    the punctuation array). *)
Theorem removePunctuation_fixed_points (s : string) :
  removePunctuation s = s <-> forallb clean_char (chars s) = true.
Proof.
  rewrite removePunctuation_pointwise, transform_fixed, forallb_forall.
  split; intros H c I.
  - rewrite <- (H c I). apply normChar_clean.
  - apply clean_char_fixed. now apply H.
Qed.

Lemma removePunctuation_fixed_points_witness :
  removePunctuation "i'd like scikit-learn" = "i'd like scikit-learn".
Proof.
  apply (proj2 (removePunctuation_fixed_points "i'd like scikit-learn")).
  vm_compute. reflexivity.
Defined.

Lemma removePunctuation_twice (s : string) :
  removePunctuation (removePunctuation s) = removePunctuation s.
Proof.
  rewrite !removePunctuation_pointwise, transform_compose.
  apply transform_ext, normChar_idem.
Qed.

Lemma normChar_tolower (c : ascii) : normChar (tolower c) = normChar c.
Proof. destruct c as [[] [] [] [] [] [] [] []]; reflexivity. Qed.

Lemma removePunctuation_tolower (s : string) :
  removePunctuation (transform tolower s) = removePunctuation s.
Proof.
  rewrite !removePunctuation_pointwise, transform_compose.
  apply transform_ext, normChar_tolower.
Qed.

(** ** getUniqueWords *)

Lemma chars_append (a b : string) : chars (a ++ b) = (chars a ++ chars b)%list.
Proof.
  unfold chars; induction a as [|c a IH]; simpl; [reflexivity | now rewrite IH].
Qed.

(** The characters of a delivered word come from the word under way or
    from the stream, and a space only from the word under way. *)
Lemma getline_loop_chars (s : string) :
  forall word w c,
    In w (getline_loop word s) -> In c (chars w) ->
    (In c (chars word) \/ In c (chars s))
    /\ (c = " "%char -> In c (chars word)).
Proof.
  induction s as [|c0 s IH]; intros word w c Iw Ic.
  - assert (w = word) as ->.
    { simpl in Iw. destruct word; simpl in Iw; [destruct Iw|].
      destruct Iw as [E|[]]; now subst. }
    split; [now left | intros _; assumption].
  - simpl in Iw. destruct (Ascii.eqb c0 " "%char) eqn:E.
    + destruct Iw as [->|Iw]; [split; [now left | intros _; assumption]|].
      destruct (IH _ _ _ Iw Ic) as ([[]|R] & Sp).
      split; [right; right; exact R | intros H; destruct (Sp H)].
    + destruct (IH _ _ _ Iw Ic) as (Or & Sp).
      rewrite chars_append in Or, Sp. simpl in Or, Sp.
      split.
      * destruct Or as [Or|Or]; [|right; right; exact Or].
        apply in_app_or in Or as [Or|[<-|[]]]; [now left | right; now left].
      * intros H. specialize (Sp H).
        apply in_app_or in Sp as [Sp|[Sp|[]]]; [assumption|].
        subst c0 c. discriminate E.
Qed.

Lemma keys_count_word (m : smap Z) (word w : string) :
  In w (keys (count_word m word))
  <-> In w (keys m) \/ (nonempty word = true /\ w = word).
Proof.
  unfold count_word, nonempty.
  destruct (String.eqb word EmptyString); simpl.
  - intuition discriminate.
  - destruct (Z.eqb (map_get 0%Z word m) 0); rewrite keys_map_set; intuition.
Qed.

Lemma keys_fold_count_word (ws : list string) :
  forall (m : smap Z) (w : string),
    In w (keys (fold_left count_word ws m))
    <-> In w (keys m) \/ In w (filter nonempty ws).
Proof.
  induction ws as [|x ws IH]; intros m w; simpl.
  - intuition.
  - rewrite IH, keys_count_word.
    destruct (nonempty x); simpl; intuition congruence.
Qed.

Lemma keys_getUniqueWords (text w : string) :
  In w (keys (getUniqueWords text)) <-> In w (words_of text).
Proof.
  unfold getUniqueWords, words_of. fold nonempty.
  rewrite keys_fold_count_word. simpl. intuition.
Qed.

Lemma key_sorted_count_word (m : smap Z) (word : string) :
  key_sorted m -> key_sorted (count_word m word).
Proof.
  intros S. unfold count_word.
  destruct (String.eqb word EmptyString); [assumption|].
  destruct (Z.eqb (map_get 0%Z word m) 0); now apply key_sorted_set.
Qed.

Lemma key_sorted_getUniqueWords (text : string) :
  key_sorted (getUniqueWords text).
Proof.
  unfold getUniqueWords.
  generalize (getline_loop EmptyString (removePunctuation text)).
  assert (G : forall ws (m : smap Z),
             key_sorted m -> key_sorted (fold_left count_word ws m)).
  { induction ws as [|x ws IH]; intros m S; simpl; [assumption|].
    apply IH. now apply key_sorted_count_word. }
  intros ws. apply G. constructor.
Qed.

Lemma key_sorted_head_lt {V : Type} (k : string) (v : V) (m : smap V) :
  key_sorted ((k, v) :: m) ->
  forall k', In k' (keys m) -> String.compare k k' = Lt.
Proof.
  revert k v; induction m as [|[k1 v1] m IH]; intros k v S k' I.
  - destruct I.
  - inversion S; subst. destruct I as [<-|I]; [assumption|].
    eapply compare_lt_trans; [eassumption|]. eapply IH; eassumption.
Qed.

Lemma key_sorted_NoDup {V : Type} (m : smap V) :
  key_sorted m -> NoDup (keys m).
Proof.
  induction m as [|[k v] m IH]; intros S; simpl; constructor.
  - intros I. pose proof (key_sorted_head_lt _ _ _ S _ I) as L.
    rewrite compare_refl in L. discriminate L.
  - apply IH. eapply key_sorted_tail; eassumption.
Qed.

(** X4: the map getUniqueWords returns has strictly increasing keys, so no
    word is stored twice, whatever the text. *)
Theorem getUniqueWords_sorted (text : string) :
  key_sorted (getUniqueWords text) /\ NoDup (keys (getUniqueWords text)).
Proof.
  split; [|apply key_sorted_NoDup]; apply key_sorted_getUniqueWords.
Qed.

(** X5: the keys of the map are exactly the non-empty words that the
    getline loop delivers from the normalised text. *)
Theorem getUniqueWords_keys (text w : string) :
  In w (keys (getUniqueWords text)) <-> In w (words_of text).
Proof. apply keys_getUniqueWords. Qed.

Lemma words_of_word_chars (text w : string) :
  In w (words_of text) ->
  nonempty w = true /\ forallb word_char (chars w) = true.
Proof.
  unfold words_of. fold nonempty. intros I.
  apply filter_In in I as (I & N). split; [assumption|].
  apply forallb_forall. intros c Ic.
  destruct (getline_loop_chars _ _ _ _ I Ic) as ([[]|In_text] & Sp).
  unfold word_char. apply andb_true_iff. split.
  - rewrite removePunctuation_pointwise, chars_transform in In_text.
    apply in_map_iff in In_text as (c' & <- & _). apply normChar_clean.
  - apply negb_true_iff, Ascii.eqb_neq. intros E. destruct (Sp E).
Qed.

(** X6: every word getUniqueWords counts is non-empty and made of word
    characters only: no space, no upper-case letter, no element of the
    punctuation array.  Apostrophes, hyphens and digits stay inside words. *)
Theorem getUniqueWords_word_shape (text : string) :
  forallb (fun w => nonempty w && forallb word_char (chars w))%bool
          (keys (getUniqueWords text)) = true.
Proof.
  apply forallb_forall. intros w I.
  apply keys_getUniqueWords, words_of_word_chars in I as (N & C).
  now rewrite N, C.
Qed.

Lemma getline_loop_no_word (s : string) :
  forall word,
    filter nonempty (getline_loop word s) = []
    <-> word = EmptyString /\ forall c, In c (chars s) -> c = " "%char.
Proof.
  induction s as [|c0 s IH]; intros word.
  - destruct word; simpl; split; try discriminate; try tauto.
    intros (E & _); discriminate E.
  - cbn [getline_loop]. destruct (Ascii.eqb c0 " "%char) eqn:E.
    + apply Ascii.eqb_eq in E; subst c0. destruct word as [|x word].
      * cbn [filter nonempty String.eqb negb]. rewrite IH. simpl.
        intuition (subst; auto).
      * simpl. split; [discriminate | intros (H & _); discriminate H].
    + apply Ascii.eqb_neq in E. rewrite IH. split.
      * intros (H & _). destruct word; discriminate H.
      * intros (_ & H). exfalso; apply E, H. simpl. now left.
Qed.

Lemma keys_nil {V : Type} (m : smap V) :
  m = [] <-> forall w, ~ In w (keys m).
Proof.
  destruct m as [|[k v] m]; simpl; split; try tauto; try discriminate.
  - intros H. exfalso. apply (H k). now left.
Qed.

Lemma list_nil_iff {A : Type} (l : list A) : l = [] <-> forall x, ~ In x l.
Proof.
  destruct l as [|a l]; simpl; split; try tauto; try discriminate.
  intros H. exfalso. apply (H a). now left.
Qed.

(** X7: getUniqueWords returns the empty map exactly for the texts that
    hold no word: every character is a space or becomes one under
    removePunctuation.  The empty text is one of them. *)
Theorem getUniqueWords_empty (text : string) :
  getUniqueWords text = []
  <-> forallb (fun c => Ascii.eqb (normChar c) " "%char) (chars text) = true.
Proof.
  rewrite keys_nil. 
  assert (W : (forall w, ~ In w (keys (getUniqueWords text)))
              <-> words_of text = []).
  { rewrite list_nil_iff. split; intros H w I; apply (H w);
      now apply keys_getUniqueWords. }
  rewrite W. unfold words_of. fold nonempty.
  rewrite getline_loop_no_word, removePunctuation_pointwise, chars_transform.
  rewrite forallb_forall. split.
  - intros (_ & H) c I. apply Ascii.eqb_eq, H, in_map. exact I.
  - intros H. split; [reflexivity|]. intros c I.
    apply in_map_iff in I as (c' & <- & I). now apply Ascii.eqb_eq, H.
Qed.

Lemma getUniqueWords_empty_witness :
  getUniqueWords "... ?!" = [].
Proof.
  apply (proj2 (getUniqueWords_empty "... ?!")). vm_compute. reflexivity.
Defined.

(** X8: for a text whose length fits in int, the count stored for a word
    is the number of its occurrences among the words of the text (0 for a
    word that does not occur), every stored count is at least 1, and the
    counts add up to the number of words. *)
Theorem getUniqueWords_counts (text : string) :
  (Z.of_nat (String.length text) <= INT_MAX)%Z ->
  (forall w, map_get 0%Z w (getUniqueWords text)
             = Z.of_nat (count_occ string_dec (words_of text) w))
  /\ (forall k v, In (k, v) (getUniqueWords text) -> (1 <= v)%Z)
  /\ vsum (getUniqueWords text) = Z.of_nat (List.length (words_of text)).
Proof.
  intros B. destruct (getUniqueWords_ok text B) as ((_ & P & V) & Occ).
  repeat split; assumption.
Qed.

Lemma getUniqueWords_counts_witness :
  vsum (getUniqueWords "Never compare an apple to an orange.")
  = Z.of_nat (List.length (words_of "Never compare an apple to an orange.")).
Proof.
  refine (proj2 (proj2 (getUniqueWords_counts
            "Never compare an apple to an orange." _))).
  vm_compute. discriminate.
Defined.

(** X9: getUniqueWords sees a text only through removePunctuation: the
    text, its lower-cased form and its normalised form give the same map. *)
Theorem getUniqueWords_normalised (text : string) :
  getUniqueWords (removePunctuation text) = getUniqueWords text
  /\ getUniqueWords (transform tolower text) = getUniqueWords text.
Proof.
  unfold getUniqueWords.
  now rewrite removePunctuation_twice, removePunctuation_tolower.
Qed.

(** ** The shape of the tables *)

Section FillLoopKeys.
Variable step : smap R -> string * Z -> smap R.
Hypothesis step_keys : forall cc it w,
  In w (keys (step cc it)) <-> w = fst it \/ In w (keys cc).

Lemma fill_loop_keys (refWords : smap Z) :
  forall (acc : smap R) (w : string),
    In w (keys (fold_left step refWords acc))
    <-> In w (keys refWords) \/ In w (keys acc).
Proof.
  induction refWords as [|it rest IH]; intros acc w; simpl.
  - intuition.
  - rewrite IH, step_keys. intuition.
Qed.
End FillLoopKeys.


Lemma tfidf_step_keys (tf_i idf cc : smap R) (it : string * Z) (w : string) :
  In w (keys (tfidf_step tf_i idf cc it)) <-> w = fst it \/ In w (keys cc).
Proof.
  unfold tfidf_step.
  destruct (negb (nonzero (map_get 0%R (fst it) tf_i))
            || negb (nonzero (map_get 0%R (fst it) idf)))%bool;
    rewrite keys_map_set; intuition.
Qed.


(** X11: computeIDF returns a map with exactly the reference words as
    keys; a word outside the reference vocabulary reads as 0. *)
Theorem computeIDF_shape (refWords : smap Z) (Docs : list string) :
  (forall w, In w (keys (computeIDF refWords Docs)) <-> In w (keys refWords))
  /\ (forall w, ~ In w (keys refWords) -> idf_cell refWords Docs w = 0%R).
Proof.
  assert (K : forall w, In w (keys (computeIDF refWords Docs))
                        <-> In w (keys refWords)).
  { intros w. unfold computeIDF.
    rewrite fill_loop_keys by (intros; apply keys_map_set). simpl. tauto. }
  split; [exact K|]. intros w N. unfold idf_cell.
  apply map_get_absent. now rewrite K.
Qed.

(** X12: computeTFIDF returns one map per entry of the TF table, each
    with exactly the reference words as keys, whatever keys the TF and
    IDF maps have; a word outside the reference vocabulary reads as 0. *)
Theorem computeTFIDF_shape (refWords : smap Z) (tf : list (smap R))
    (idf : smap R) :
  List.length (computeTFIDF refWords tf idf) = List.length tf
  /\ (forall i w, (i < List.length tf)%nat ->
        (In w (keys (nth i (computeTFIDF refWords tf idf) []))
         <-> In w (keys refWords)))
  /\ (forall i w, (i < List.length tf)%nat -> ~ In w (keys refWords) ->
        tfidf_cell refWords tf idf i w = 0%R).
Proof.
  assert (K : forall i w, (i < List.length tf)%nat ->
            (In w (keys (nth i (computeTFIDF refWords tf idf) []))
             <-> In w (keys refWords))).
  { intros i w L. rewrite computeTFIDF_nth by assumption.
    rewrite fill_loop_keys by (intros; apply tfidf_step_keys). simpl. tauto. }
  split; [apply length_map|]. split; [exact K|].
  intros i w L N. unfold tfidf_cell. apply map_get_absent. now rewrite K.
Qed.


(** ** Term frequency and document frequency *)

Lemma occurs_in_iff (w doc : string) :
  occurs_in w doc = true <-> In w (words_of doc).
Proof.
  unfold occurs_in. rewrite existsb_exists. split.
  - intros (x & I & E). apply String.eqb_eq in E. now subst.
  - intros I. exists w. split; [assumption | apply String.eqb_refl].
Qed.

(** The TF of a reference word in a document with at least one word. *)
Lemma tf_cell_value (refWords : smap Z) (Docs : list string)
    (i : nat) (w : string) :
  (i < List.length Docs)%nat -> In w (keys refWords) ->
  (Z.of_nat (String.length (nth i Docs EmptyString)) <= INT_MAX)%Z ->
  (0 < total_words (getUniqueWords (nth i Docs EmptyString)))%Z ->
  exists c n : Z,
    (0 < n)%Z /\
    c = Z.of_nat (count_occ string_dec (words_of (nth i Docs EmptyString)) w) /\
    tf_cell refWords Docs i w = (IZR c / IZR n)%R.
Proof.
  intros L I B T. set (doc := nth i Docs EmptyString) in *.
  destruct (getUniqueWords_ok doc B) as (_ & Occ).
  exists (map_get 0%Z w (getUniqueWords doc)), (total_words (getUniqueWords doc)).
  split; [assumption|]. split; [apply Occ|].
  unfold tf_cell. rewrite computeTF_nth by assumption. now apply tf_row_get.
Qed.

Lemma tf_cell_sign (refWords : smap Z) (Docs : list string)
    (i : nat) (w : string) :
  (i < List.length Docs)%nat -> In w (keys refWords) ->
  (Z.of_nat (String.length (nth i Docs EmptyString)) <= INT_MAX)%Z ->
  (0 < total_words (getUniqueWords (nth i Docs EmptyString)))%Z ->
  (In w (words_of (nth i Docs EmptyString)) ->
   (0 < tf_cell refWords Docs i w)%R)
  /\ (~ In w (words_of (nth i Docs EmptyString)) ->
      tf_cell refWords Docs i w = 0%R).
Proof.
  intros L I B T.
  destruct (tf_cell_value refWords Docs i w L I B T) as (c & n & N & C & E).
  assert (Pn : (0 < IZR n)%R) by now apply IZR_lt.
  rewrite E. split; intros H.
  - apply (count_occ_In string_dec) in H.
    apply Rdiv_lt_0_compat; [apply IZR_lt; lia | assumption].
  - apply (count_occ_not_In string_dec) in H. rewrite H in C. subst c.
    simpl. unfold Rdiv. apply Rmult_0_l.
Qed.

(** X13: in a document with at least one word (and short enough for int),
    the TF of a reference word is positive exactly when the word occurs
    in the document, and 0 exactly when it does not. *)
Theorem computeTF_positive (refWords : smap Z) (Docs : list string)
    (i : nat) (w : string) :
  (i < List.length Docs)%nat -> In w (keys refWords) ->
  (Z.of_nat (String.length (nth i Docs EmptyString)) <= INT_MAX)%Z ->
  (0 < total_words (getUniqueWords (nth i Docs EmptyString)))%Z ->
  ((0 < tf_cell refWords Docs i w)%R
   <-> In w (words_of (nth i Docs EmptyString)))
  /\ (tf_cell refWords Docs i w = 0%R
      <-> ~ In w (words_of (nth i Docs EmptyString))).
Proof.
  intros L I B T.
  destruct (tf_cell_sign refWords Docs i w L I B T) as (P & Z0).
  destruct (in_dec string_dec w (words_of (nth i Docs EmptyString))) as [Y|N].
  - specialize (P Y). split; split; intros H; try assumption; try tauto.
    + rewrite H in P. apply Rlt_irrefl in P. contradiction.
  - specialize (Z0 N). split; split; intros H; try assumption; try tauto.
    + rewrite Z0 in H. apply Rlt_irrefl in H. contradiction.
Qed.

Lemma computeTF_positive_witness :
  (0 < tf_cell [("an", 1%Z)] ["An apple, an orange."] 0 "an")%R.
Proof.
  refine (proj2 (proj1 (computeTF_positive [("an", 1%Z)]
            ["An apple, an orange."] 0 "an" _ _ _ _)) _).
  - simpl. apply le_n.
  - simpl. left. reflexivity.
  - vm_compute. discriminate.
  - vm_compute. reflexivity.
  - vm_compute. left. reflexivity.
Defined.

Lemma docFreq_occurs (w : string) (Docs : list string) :
  (forall doc, In doc Docs -> (Z.of_nat (String.length doc) <= INT_MAX)%Z) ->
  docFreq w Docs = List.length (filter (occurs_in w) Docs).
Proof.
  intros B. unfold docFreq. f_equal. apply filter_ext_in. intros doc I.
  pose proof (word_counted_iff doc w (B doc I)) as H.
  destruct (occurs_in w doc) eqn:O.
  - apply occurs_in_iff, H in O. now apply negb_true_iff, Z.eqb_neq.
  - apply negb_false_iff, Z.eqb_eq.
    destruct (Z.eq_dec (map_get 0%Z w (getUniqueWords doc)) 0) as [E|N];
      [assumption|].
    apply H, occurs_in_iff in N. congruence.
Qed.

(** X14: when every document is short enough for int, the divisor [nOcc]
    of computeIDF is the number of documents the word occurs in, counting
    each document once however often the word is repeated in it. *)
Theorem computeIDF_counts_documents (w : string) (Docs : list string) :
  (forall doc, In doc Docs -> (Z.of_nat (String.length doc) <= INT_MAX)%Z) ->
  count_docs w Docs = INR (List.length (filter (occurs_in w) Docs))
  /\ (List.length (filter (occurs_in w) Docs) <= List.length Docs)%nat.
Proof.
  intros B. rewrite count_docs_docFreq, (docFreq_occurs w Docs B).
  split; [reflexivity | apply filter_length_le].
Qed.

Lemma computeIDF_counts_documents_witness :
  count_docs "an" Docs = INR 3.
Proof.
  refine (proj1 (computeIDF_counts_documents "an" Docs _)).
  intros doc [ <- | [ <- | [ <- | [ <- | [] ] ] ] ]; vm_compute; discriminate.
Defined.

(** ** Inverse document frequency *)

Lemma ln_ratio_sign (n d : nat) :
  (1 <= d <= n)%nat ->
  (d = n -> ln (INR n / INR d) = 0%R)
  /\ ((d < n)%nat -> (0 < ln (INR n / INR d))%R).
Proof.
  intros (D & L).
  assert (Pd : (0 < INR d)%R) by (apply lt_0_INR; lia).
  split.
  - intros ->. rewrite Rdiv_diag by lra. apply ln_1.
  - intros Lt. rewrite <- ln_1. apply ln_increasing; [lra|].
    apply (Rmult_lt_reg_r (INR d)); [assumption|].
    unfold Rdiv. rewrite Rmult_assoc, Rinv_l by lra.
    rewrite Rmult_1_l, Rmult_1_r. now apply lt_INR.
Qed.

(** X15: for a reference word found in at least one document the IDF is
    never negative; it is 0 exactly when the word is found in every
    document and positive exactly when some document lacks it. *)
Theorem computeIDF_sign (refWords : smap Z) (Docs : list string) (w : string) :
  In w (keys refWords) -> (1 <= docFreq w Docs)%nat ->
  (0 <= idf_cell refWords Docs w)%R
  /\ (idf_cell refWords Docs w = 0%R <-> docFreq w Docs = List.length Docs)
  /\ ((0 < idf_cell refWords Docs w)%R
      <-> (docFreq w Docs < List.length Docs)%nat).
Proof.
  intros I D. unfold idf_cell. rewrite computeIDF_get by assumption.
  pose proof (docFreq_le w Docs) as L.
  destruct (ln_ratio_sign (List.length Docs) (docFreq w Docs)) as (Z0 & P);
    [lia|].
  destruct (Nat.eq_dec (docFreq w Docs) (List.length Docs)) as [E|N].
  - rewrite (Z0 E). split; [lra|]. split; split; intros H;
      try assumption; try reflexivity; try lia.
    apply Rlt_irrefl in H. contradiction.
  - assert (Lt : (docFreq w Docs < List.length Docs)%nat) by lia.
    specialize (P Lt). split; [lra|]. split; split; intros H;
      try assumption; try lia. rewrite H in P.
    apply Rlt_irrefl in P. contradiction.
Qed.

Lemma computeIDF_sign_witness :
  (0 < idf_cell [("a", 1%Z); ("b", 1%Z)] ["a b"; "A!"] "b")%R.
Proof.
  refine (proj2 (proj2 (proj2 (computeIDF_sign [("a", 1%Z); ("b", 1%Z)]
            ["a b"; "A!"] "b" _ _))) _).
  - simpl. right. left. reflexivity.
  - vm_compute. apply le_n.
  - vm_compute. apply le_n.
Defined.

(** X16: the IDF does not increase with the document frequency: of two
    reference words, each found in at least one document, the one found
    in more documents has the smaller or equal IDF. *)
Theorem computeIDF_monotone (refWords : smap Z) (Docs : list string)
    (w1 w2 : string) :
  In w1 (keys refWords) -> In w2 (keys refWords) ->
  (1 <= docFreq w1 Docs)%nat -> (docFreq w1 Docs <= docFreq w2 Docs)%nat ->
  (idf_cell refWords Docs w2 <= idf_cell refWords Docs w1)%R.
Proof.
  intros I1 I2 D1 D12. unfold idf_cell.
  rewrite !computeIDF_get by assumption.
  pose proof (docFreq_le w2 Docs) as L2.
  set (n := List.length Docs) in *.
  set (d1 := docFreq w1 Docs) in *. set (d2 := docFreq w2 Docs) in *.
  assert (P1 : (0 < INR d1)%R) by (apply lt_0_INR; lia).
  assert (P2 : (0 < INR d2)%R) by (apply lt_0_INR; lia).
  assert (Pn : (0 < INR n)%R) by (apply lt_0_INR; lia).
  assert (Le : (INR d1 <= INR d2)%R) by now apply le_INR.
  assert (Q : (INR n / INR d2 <= INR n / INR d1)%R).
  { unfold Rdiv. apply Rmult_le_compat_l; [lra|].
    now apply Rinv_le_contravar. }
  assert (Pq : (0 < INR n / INR d2)%R) by now apply Rdiv_lt_0_compat.
  destruct Q as [Q|Q].
  - left. now apply ln_increasing.
  - rewrite Q. apply Rle_refl.
Qed.

Lemma computeIDF_monotone_witness :
  (idf_cell [("a", 1%Z); ("b", 1%Z)] ["a b"; "A!"] "a"
   <= idf_cell [("a", 1%Z); ("b", 1%Z)] ["a b"; "A!"] "b")%R.
Proof.
  refine (computeIDF_monotone [("a", 1%Z); ("b", 1%Z)] ["a b"; "A!"]
            "b" "a" _ _ _ _).
  - simpl. right. left. reflexivity.
  - simpl. left. reflexivity.
  - vm_compute. apply le_n.
  - vm_compute. apply le_S, le_n.
Defined.

(** ** The TF-IDF table of the pipeline *)

Lemma pipeline_cell (refWords : smap Z) (Docs : list string)
    (i : nat) (w : string) :
  (i < List.length Docs)%nat -> In w (keys refWords) ->
  tfidf_cell refWords (computeTF refWords Docs) (computeIDF refWords Docs) i w
  = if (negb (nonzero (tf_cell refWords Docs i w))
        || negb (nonzero (idf_cell refWords Docs w)))%bool
    then 0%R
    else (tf_cell refWords Docs i w * idf_cell refWords Docs w)%R.
Proof.
  intros L I. unfold tfidf_cell.
  rewrite computeTFIDF_get; [reflexivity | | assumption].
  unfold computeTF. now rewrite length_map.
Qed.

(** X17: a reference word found in every document scores 0 in every
    document, however often it occurs there. *)
Theorem ubiquitous_word_scores_zero (refWords : smap Z) (Docs : list string)
    (i : nat) (w : string) :
  (i < List.length Docs)%nat -> In w (keys refWords) ->
  docFreq w Docs = List.length Docs ->
  tfidf_cell refWords (computeTF refWords Docs) (computeIDF refWords Docs) i w
  = 0%R.
Proof.
  intros L I D. rewrite pipeline_cell by assumption.
  assert (E : idf_cell refWords Docs w = 0%R).
  { unfold idf_cell. rewrite computeIDF_get by assumption.
    apply (ln_ratio_sign (List.length Docs) (docFreq w Docs)); lia. }
  rewrite (nonzero_false _ E). simpl. now rewrite orb_true_r.
Qed.

Lemma ubiquitous_word_scores_zero_witness :
  tfidf_cell [("a", 1%Z); ("b", 1%Z)]
    (computeTF [("a", 1%Z); ("b", 1%Z)] ["a b"; "A!"])
    (computeIDF [("a", 1%Z); ("b", 1%Z)] ["a b"; "A!"]) 1 "a" = 0%R.
Proof.
  refine (ubiquitous_word_scores_zero [("a", 1%Z); ("b", 1%Z)]
            ["a b"; "A!"] 1 "a" _ _ _).
  - simpl. apply le_n.
  - simpl. left. reflexivity.
  - vm_compute. reflexivity.
Defined.

(** X18: in a document with at least one word (and short enough for int),
    a reference word found in at least one document of the set has a
    score that is never negative, and positive exactly when the word
    occurs in this document and is missing from some document. *)
Theorem pipeline_cell_sign (refWords : smap Z) (Docs : list string)
    (i : nat) (w : string) :
  (i < List.length Docs)%nat -> In w (keys refWords) ->
  (Z.of_nat (String.length (nth i Docs EmptyString)) <= INT_MAX)%Z ->
  (0 < total_words (getUniqueWords (nth i Docs EmptyString)))%Z ->
  (1 <= docFreq w Docs)%nat ->
  (0 <= tfidf_cell refWords (computeTF refWords Docs)
          (computeIDF refWords Docs) i w)%R
  /\ ((0 < tfidf_cell refWords (computeTF refWords Docs)
             (computeIDF refWords Docs) i w)%R
      <-> In w (words_of (nth i Docs EmptyString))
          /\ (docFreq w Docs < List.length Docs)%nat)
  /\ (~ In w (words_of (nth i Docs EmptyString)) ->
      tfidf_cell refWords (computeTF refWords Docs)
        (computeIDF refWords Docs) i w = 0%R).
Proof.
  intros L I B T D. rewrite pipeline_cell by assumption.
  destruct (tf_cell_sign refWords Docs i w L I B T) as (TP & TZ).
  pose proof (docFreq_le w Docs) as DL.
  assert (IV : idf_cell refWords Docs w
               = ln (INR (List.length Docs) / INR (docFreq w Docs))).
  { unfold idf_cell. now apply computeIDF_get. }
  destruct (ln_ratio_sign (List.length Docs) (docFreq w Docs)) as (IZ & IP);
    [lia|]. rewrite <- IV in IZ, IP.
  destruct (in_dec string_dec w (words_of (nth i Docs EmptyString))) as [Y|N].
  - specialize (TP Y).
    rewrite (nonzero_true (tf_cell refWords Docs i w)) by lra. simpl.
    destruct (Nat.eq_dec (docFreq w Docs) (List.length Docs)) as [E|NE].
    + rewrite (nonzero_false _ (IZ E)). simpl.
      split; [lra|]. split; [|tauto]. split; [|lia].
      intros H. apply Rlt_irrefl in H. contradiction.
    + assert (Lt : (docFreq w Docs < List.length Docs)%nat) by lia.
      specialize (IP Lt).
      rewrite (nonzero_true (idf_cell refWords Docs w)) by lra. simpl.
      assert (0 < tf_cell refWords Docs i w * idf_cell refWords Docs w)%R
        by now apply Rmult_lt_0_compat.
      split; [lra|]. split; [tauto|]. tauto.
  - rewrite (nonzero_false _ (TZ N)). simpl.
    split; [lra|]. split; [|reflexivity]. split; [|tauto].
    intros H. apply Rlt_irrefl in H. contradiction.
Qed.

Lemma pipeline_cell_sign_witness :
  (0 < tfidf_cell [("a", 1%Z); ("b", 1%Z)]
         (computeTF [("a", 1%Z); ("b", 1%Z)] ["a b"; "A!"])
         (computeIDF [("a", 1%Z); ("b", 1%Z)] ["a b"; "A!"]) 0 "b")%R.
Proof.
  refine (proj2 (proj1 (proj2 (pipeline_cell_sign [("a", 1%Z); ("b", 1%Z)]
            ["a b"; "A!"] 0 "b" _ _ _ _ _))) _).
  - simpl. apply le_S, le_n.
  - simpl. right. left. reflexivity.
  - vm_compute. discriminate.
  - vm_compute. reflexivity.
  - vm_compute. apply le_n.
  - split; [vm_compute; right; left; reflexivity | vm_compute; apply le_n].
Defined.

(** ** The result of the ranking *)

(** X19: whatever the table, getMostSimilarDocument returns 0 or an id
    from 2 up to the number of documents. *)
Theorem getMostSimilarDocument_range (refWords : smap Z)
    (tfidf : list (smap R)) :
  getMostSimilarDocument refWords tfidf = 0%Z
  \/ (2 <= getMostSimilarDocument refWords tfidf
      <= Z.of_nat (List.length tfidf))%Z.
Proof.
  destruct (rank_result refWords tfidf) as [(E & _)|(i & (Ri & _) & E)].
  - now left.
  - right. rewrite E. lia.
Qed.

Lemma fold_left_keys {A : Type} (step : A -> string * Z -> A) :
  (forall a it, step a it = step a (fst it, 0%Z)) ->
  forall (r : smap Z) (acc : A),
    fold_left step r acc
    = fold_left (fun a k => step a (k, 0%Z)) (keys r) acc.
Proof.
  intros E; induction r as [|it r IH]; intros acc; simpl.
  - reflexivity.
  - now rewrite IH, E.
Qed.

Lemma tf_row_keys_only (r1 r2 : smap Z) (doc : string) :
  keys r1 = keys r2 -> tf_row r1 doc = tf_row r2 doc.
Proof.
  intros K. unfold tf_row.
  rewrite !(fold_left_keys (tf_step _ _)) by reflexivity. now rewrite K.
Qed.

Lemma doc_sum_keys_only (r1 r2 : smap Z) (row : smap R) :
  keys r1 = keys r2 -> doc_sum r1 row = doc_sum r2 row.
Proof.
  intros K. unfold doc_sum.
  rewrite !(fold_left_keys
              (fun sum it =>
                 if nonzero (map_get 0%R (fst it) row)
                 then (sum + map_get 0%R (fst it) row)%R else sum))
    by reflexivity.
  now rewrite K.
Qed.

(** X22: the counts stored in the reference vocabulary are never read:
    two vocabularies with the same keys give the same TF table, the same
    IDF map, the same TF-IDF table and the same ranking. *)
Theorem refWords_counts_unused (r1 r2 : smap Z) :
  keys r1 = keys r2 ->
  (forall Docs, computeTF r1 Docs = computeTF r2 Docs)
  /\ (forall Docs, computeIDF r1 Docs = computeIDF r2 Docs)
  /\ (forall tf idf, computeTFIDF r1 tf idf = computeTFIDF r2 tf idf)
  /\ (forall tfidf, getMostSimilarDocument r1 tfidf
                    = getMostSimilarDocument r2 tfidf).
Proof.
  intros K. repeat split.
  - intros Docs. unfold computeTF. apply map_ext. intros doc.
    now apply tf_row_keys_only.
  - intros Docs. unfold computeIDF.
    rewrite !(fold_left_keys
                (fun counts it =>
                   map_set (fst it)
                     (ln (IZR (Z.of_nat (List.length Docs))
                          / count_docs (fst it) Docs)) counts))
      by reflexivity.
    now rewrite K.
  - intros tf idf. unfold computeTFIDF. apply map_ext. intros tf_i.
    rewrite !(fold_left_keys (tfidf_step tf_i idf)) by reflexivity.
    now rewrite K.
  - intros tfidf. unfold getMostSimilarDocument. f_equal.
    apply fold_left_ext_in. intros st i _. unfold rank_step.
    now rewrite (doc_sum_keys_only r1 r2).
Qed.

Lemma refWords_counts_unused_witness :
  computeIDF [("a", 1%Z); ("b", 1%Z)] ["a b"; "A!"]
  = computeIDF [("a", 7%Z); ("b", 2%Z)] ["a b"; "A!"].
Proof.
  refine (proj1 (proj2 (refWords_counts_unused [("a", 1%Z); ("b", 1%Z)]
            [("a", 7%Z); ("b", 2%Z)] _)) _).
  reflexivity.
Defined.

(** ** The program over any array of documents *)

Lemma main_result_main_on : main_result = main_on Docs.
Proof. reflexivity. Qed.

Lemma main_on_length (Docs : list string) (refWords : smap Z) :
  List.length (computeTFIDF refWords (computeTF refWords Docs)
                 (computeIDF refWords Docs))
  = List.length Docs.
Proof. unfold computeTFIDF, computeTF. now rewrite !length_map. Qed.

Lemma docFreq_map (f : string -> string) (w : string) (Docs : list string) :
  (forall d, getUniqueWords (f d) = getUniqueWords d) ->
  docFreq w (map f Docs) = docFreq w Docs.
Proof.
  intros E. unfold docFreq. induction Docs as [|d Docs IH]; simpl.
  - reflexivity.
  - rewrite E.
    destruct (negb (Z.eqb (map_get 0%Z w (getUniqueWords d)) 0)); simpl;
      now rewrite IH.
Qed.

Lemma main_on_map (f : string -> string) (Docs : list string) :
  (forall d, getUniqueWords (f d) = getUniqueWords d) ->
  main_on (map f Docs) = main_on Docs.
Proof.
  intros E. unfold main_on.
  assert (R0 : getUniqueWords (nth 0 (map f Docs) EmptyString)
               = getUniqueWords (nth 0 Docs EmptyString)).
  { destruct Docs as [|d Docs]; simpl; [reflexivity | apply E]. }
  rewrite R0. set (refWords := getUniqueWords (nth 0 Docs EmptyString)).
  assert (TF : computeTF refWords (map f Docs) = computeTF refWords Docs).
  { unfold computeTF. rewrite map_map. apply map_ext. intros d.
    unfold tf_row. now rewrite E. }
  assert (IDF : computeIDF refWords (map f Docs) = computeIDF refWords Docs).
  { unfold computeIDF. rewrite length_map.
    apply fold_left_ext_in. intros counts it _.
    now rewrite !count_docs_docFreq, docFreq_map. }
  now rewrite TF, IDF.
Qed.

(** X23: the output does not depend on the case or the punctuation of
    the documents: lower-casing or normalising every document beforehand
    leaves the printed id unchanged. *)
Theorem main_on_normalised (Docs : list string) :
  (1 <= List.length Docs)%nat ->
  main_on (map removePunctuation Docs) = main_on Docs
  /\ main_on (map (transform tolower) Docs) = main_on Docs.
Proof.
  intros _. split; apply main_on_map; intros d; unfold getUniqueWords.
  - now rewrite removePunctuation_twice.
  - now rewrite removePunctuation_tolower.
Qed.

Lemma main_on_normalised_witness :
  main_on (map removePunctuation Docs) = main_on Docs.
Proof.
  refine (proj1 (main_on_normalised Docs _)).
  simpl. apply le_S, le_S, le_S, le_n.
Defined.

(** X24: on two or more documents, each with at least one word and short
    enough for int, the id printed names one of the documents after the
    first: it lies between 2 and the number of documents. *)
Theorem main_on_range (Docs : list string) :
  (2 <= List.length Docs)%nat ->
  (forall doc, In doc Docs ->
     (Z.of_nat (String.length doc) <= INT_MAX)%Z /\ words_of doc <> []) ->
  (2 <= main_on Docs <= Z.of_nat (List.length Docs))%Z.
Proof.
  intros L H. unfold main_on.
  set (refWords := getUniqueWords (nth 0 Docs EmptyString)).
  set (tfidf := computeTFIDF refWords (computeTF refWords Docs)
                  (computeIDF refWords Docs)).
  assert (Len : List.length tfidf = List.length Docs)
    by apply main_on_length.
  assert (NN : nonneg_scores tfidf).
  { apply computeTFIDF_nonneg. intros doc I. now apply H. }
  destruct (rank_result_exists refWords tfidf 1) as (i & (Ri & _) & E).
  - lia.
  - now apply score_nonneg.
  - rewrite E. lia.
Qed.

Lemma main_on_range_witness :
  (2 <= main_on ["a b"; "A!"] <= 2)%Z.
Proof.
  refine (main_on_range ["a b"; "A!"] _ _).
  - simpl. apply le_n.
  - intros doc [ <- | [ <- | [] ] ]; split;
      try (vm_compute; discriminate).
Defined.

Lemma cell_sum_zero (refWords : smap Z) (row : smap R) :
  (forall w, In w (keys refWords) -> map_get 0%R w row = 0%R) ->
  cell_sum refWords row = 0%R.
Proof.
  unfold cell_sum. intros H.
  assert (G : forall a, fold_left
                (fun sum it => (sum + map_get 0%R (fst it) row)%R) refWords a
              = a).
  { induction refWords as [|it rest IH]; intros a; simpl; [reflexivity|].
    rewrite IH.
    - rewrite H; [lra | now left].
    - intros w I. apply H. now right. }
  apply G.
Qed.

(** X25: when no document after the first contains any word of the first
    (each of them having at least one word and being short enough for
    int), every candidate scores 0 and the id printed is that of the last
    document. *)
Theorem main_on_no_overlap (Docs : list string) :
  (2 <= List.length Docs)%nat ->
  (forall i, (1 <= i < List.length Docs)%nat ->
     (Z.of_nat (String.length (nth i Docs EmptyString)) <= INT_MAX)%Z
     /\ words_of (nth i Docs EmptyString) <> []
     /\ forall w, In w (words_of (nth 0 Docs EmptyString)) ->
                  ~ In w (words_of (nth i Docs EmptyString))) ->
  main_on Docs = Z.of_nat (List.length Docs).
Proof.
  intros L H. unfold main_on.
  set (refWords := getUniqueWords (nth 0 Docs EmptyString)).
  set (tfidf := computeTFIDF refWords (computeTF refWords Docs)
                  (computeIDF refWords Docs)).
  assert (Len : List.length tfidf = List.length Docs)
    by apply main_on_length.
  assert (S0 : forall k, (1 <= k < List.length Docs)%nat ->
             score refWords tfidf k = 0%R).
  { intros k K. destruct (H k K) as (B & NE & Dis).
    unfold score. rewrite doc_sum_cell_sum. apply cell_sum_zero.
    intros w I.
    change (map_get 0%R w (nth k tfidf []))
      with (tfidf_cell refWords (computeTF refWords Docs)
              (computeIDF refWords Docs) k w).
    rewrite pipeline_cell by (assumption || lia).
    assert (T : (0 < total_words (getUniqueWords (nth k Docs EmptyString)))%Z).
    { destruct (getUniqueWords_ok _ B) as (OK & _).
      pose proof (words_of_bound (nth k Docs EmptyString)).
      rewrite (total_words_vsum _ _ OK) by lia.
      destruct (words_of (nth k Docs EmptyString)); [congruence | simpl; lia]. }
    destruct (tf_cell_sign refWords Docs k w ltac:(lia) I B T) as (_ & TZ).
    rewrite (nonzero_false (tf_cell refWords Docs k w)); [reflexivity|].
    apply TZ, Dis. now apply keys_getUniqueWords. }
  rewrite <- Len.
  rewrite (rank_result_winner refWords tfidf (List.length tfidf - 1)).
  - lia.
  - rewrite Len. repeat split; try lia.
    + rewrite S0 by lia. apply Rle_refl.
    + intros k K. rewrite !S0 by lia. apply Rle_refl.
Qed.

Lemma main_on_no_overlap_witness :
  main_on ["an apple"; "Orange juice."; "I prefer tea"] = 3%Z.
Proof.
  refine (main_on_no_overlap ["an apple"; "Orange juice."; "I prefer tea"]
            _ _).
  - simpl. apply le_S, le_n.
  - simpl List.length. intros i K.
    assert (i = 1 \/ i = 2)%nat as [ -> | -> ] by lia;
      (split; [vm_compute; discriminate|]);
      (split; [vm_compute; discriminate|]);
      intros w I; vm_compute in I; vm_compute;
      intros J; intuition (subst; discriminate).
Defined.

(** X26: when the first document has no word, the vocabulary is empty,
    every candidate scores 0 and, with two or more documents, the id
    printed is that of the last document. *)
Theorem main_on_empty_reference (Docs : list string) :
  (2 <= List.length Docs)%nat ->
  words_of (nth 0 Docs EmptyString) = [] ->
  main_on Docs = Z.of_nat (List.length Docs).
Proof.
  intros L E. unfold main_on.
  assert (R0 : getUniqueWords (nth 0 Docs EmptyString) = []).
  { apply keys_nil. intros w I. apply keys_getUniqueWords in I.
    rewrite E in I. destruct I. }
  rewrite R0.
  set (tfidf := computeTFIDF [] (computeTF [] Docs) (computeIDF [] Docs)).
  assert (Len : List.length tfidf = List.length Docs)
    by apply main_on_length.
  rewrite <- Len.
  rewrite (rank_result_winner [] tfidf (List.length tfidf - 1)).
  - lia.
  - unfold winner, score, doc_sum. simpl.
    repeat split; try lia; try apply Rle_refl.
    intros k K. apply Rle_refl.
Qed.

Lemma main_on_empty_reference_witness :
  main_on ["..."; "an apple"; "an orange"] = 3%Z.
Proof.
  refine (main_on_empty_reference ["..."; "an apple"; "an orange"] _ _).
  - simpl. apply le_S, le_n.
  - vm_compute. reflexivity.
Defined.

(** * The ranking over binary64 *)

(** ** The order of binary64 comparisons *)

Ltac cmp_facts :=
  repeat match goal with
  | H : context [Pos.compare_cont Eq ?p ?q] |- _ =>
      change (Pos.compare_cont Eq p q) with (Pos.compare p q) in H
  | |- context [Pos.compare_cont Eq ?p ?q] =>
      change (Pos.compare_cont Eq p q) with (Pos.compare p q)
  end;
  repeat match goal with
  | H : context [Z.compare ?a ?b] |- _ => destruct (Z.compare_spec a b)
  | |- context [Z.compare ?a ?b] => destruct (Z.compare_spec a b)
  | H : context [Pos.compare ?a ?b] |- _ => destruct (Pos.compare_spec a b)
  | |- context [Pos.compare ?a ?b] => destruct (Pos.compare_spec a b)
  end.

Lemma SFcompare_antisym (a b : spec_float) :
  SFcompare b a = option_map CompOpp (SFcompare a b).
Proof.
  destruct a as [sa|sa| |sa ma ea], b as [sb|sb| |sb mb eb]; simpl;
    try reflexivity;
    try (destruct sa; reflexivity); try (destruct sb; reflexivity);
    try (destruct sa, sb; reflexivity).
  destruct sa, sb; simpl; try reflexivity;
    cmp_facts; simpl; try reflexivity; try lia; subst; try lia.
Qed.

Lemma SFcompare_trans (a b c : spec_float) (c1 c2 : comparison) :
  SFcompare a b = Some c1 -> SFcompare b c = Some c2 ->
  below c1 = true -> below c2 = true ->
  SFcompare a c = Some (match c1, c2 with Eq, Eq => Eq | _, _ => Lt end).
Proof.
  destruct a as [sa|sa| |sa ma ea], b as [sb|sb| |sb mb eb],
           c as [sc|sc| |sc mc ec]; simpl; try discriminate;
    intros H1 H2 B1 B2;
    repeat match goal with s : bool |- _ => destruct s end;
    simpl in *;
    try (inversion H1; inversion H2; subst; simpl in *;
         congruence).
  all: cmp_facts; simpl in *;
    inversion H1; inversion H2; subst; simpl in *;
    try congruence; try lia.
Qed.

Lemma SFcompare_none (a b : spec_float) :
  SFcompare a b = None -> a = S754_nan \/ b = S754_nan.
Proof.
  destruct a as [sa|sa| |sa ma ea], b as [sb|sb| |sb mb eb]; simpl;
    try discriminate; auto.
Qed.

Lemma SFcompare_nan_r (a : spec_float) : SFcompare a S754_nan = None.
Proof. destruct a; reflexivity. Qed.

Lemma SFcompare_some_r (a b : spec_float) (c : comparison) :
  SFcompare a b = Some c -> b <> S754_nan.
Proof. intros H E; subst. rewrite SFcompare_nan_r in H. discriminate. Qed.

Lemma leb_trans (x y z : float) :
  PrimFloat.leb x y = true -> PrimFloat.leb y z = true ->
  PrimFloat.leb x z = true.
Proof.
  rewrite !leb_spec. unfold SFleb.
  destruct (SFcompare (Prim2SF x) (Prim2SF y)) as [c1|] eqn:E1; [|discriminate].
  destruct (SFcompare (Prim2SF y) (Prim2SF z)) as [c2|] eqn:E2; [|discriminate].
  intros H1 H2.
  rewrite (SFcompare_trans _ _ _ c1 c2 E1 E2);
    destruct c1, c2; try reflexivity; discriminate.
Qed.

Lemma leb_ltb_trans (x y z : float) :
  PrimFloat.leb x y = true -> PrimFloat.ltb y z = true ->
  PrimFloat.ltb x z = true.
Proof.
  rewrite leb_spec, !ltb_spec. unfold SFleb, SFltb.
  destruct (SFcompare (Prim2SF x) (Prim2SF y)) as [c1|] eqn:E1; [|discriminate].
  destruct (SFcompare (Prim2SF y) (Prim2SF z)) as [c2|] eqn:E2; [|discriminate].
  intros H1 H2.
  rewrite (SFcompare_trans _ _ _ c1 c2 E1 E2);
    destruct c1, c2; try reflexivity; discriminate.
Qed.

Lemma ltb_leb (x y : float) :
  PrimFloat.ltb x y = true -> PrimFloat.leb x y = true.
Proof.
  rewrite leb_spec, ltb_spec. unfold SFleb, SFltb.
  destruct (SFcompare (Prim2SF x) (Prim2SF y)) as [[]|]; auto.
Qed.

Lemma leb_not_ltb (x y : float) :
  PrimFloat.leb x y = true -> PrimFloat.ltb y x = false.
Proof.
  rewrite leb_spec, ltb_spec. unfold SFleb, SFltb.
  rewrite (SFcompare_antisym (Prim2SF x) (Prim2SF y)).
  destruct (SFcompare (Prim2SF x) (Prim2SF y)) as [[]|]; simpl; auto.
Qed.

(** Two values that each passed a comparison are numbers, and of two
    numbers one is at most the other. *)
Lemma leb_total (x y a b : float) :
  PrimFloat.leb a x = true -> PrimFloat.leb b y = true ->
  PrimFloat.ltb x y = false -> PrimFloat.leb y x = true.
Proof.
  rewrite !leb_spec, ltb_spec. unfold SFleb, SFltb. intros Hx Hy.
  assert (Nx : Prim2SF x <> S754_nan).
  { destruct (SFcompare (Prim2SF a) (Prim2SF x)) eqn:E; [|discriminate].
    eapply SFcompare_some_r; eassumption. }
  assert (Ny : Prim2SF y <> S754_nan).
  { destruct (SFcompare (Prim2SF b) (Prim2SF y)) eqn:E; [|discriminate].
    eapply SFcompare_some_r; eassumption. }
  rewrite (SFcompare_antisym (Prim2SF x) (Prim2SF y)).
  destruct (SFcompare (Prim2SF x) (Prim2SF y)) as [[]|] eqn:E; simpl; auto.
  apply SFcompare_none in E. tauto.
Qed.



(** ** The loop of getMostSimilarDocument over binary64 *)

Lemma b64_doc_sum_from (refWords : smap Z) (row : smap float) (a : float) :
  fold_left
    (fun sum it =>
       if B64.truthy (map_get 0%float (fst it) row)
       then PrimFloat.add sum (map_get 0%float (fst it) row) else sum)
    refWords a
  = fold_left PrimFloat.add (filter B64.truthy (cells refWords row)) a.
Proof.
  revert a; unfold cells; induction refWords as [|it rest IH]; intros a.
  - reflexivity.
  - cbn [fold_left keys map filter].
    destruct (B64.truthy (map_get 0%float (fst it) row)); cbn [fold_left];
      apply IH.
Qed.

(** The loop adds up what [summed_cells] describes. *)
Lemma b64_doc_sum_summed (refWords : smap Z) (row : smap float) :
  B64.doc_sum refWords row = summed_cells refWords row.
Proof. apply b64_doc_sum_from. Qed.

Lemma b64_rank_step_inv (refWords : smap Z) (tfidf : list (smap float))
    (m : nat) (st : B64.rank_state) :
  b64_rank_inv refWords tfidf m st ->
  b64_rank_inv refWords tfidf (S m) (B64.rank_step refWords tfidf st (S m)).
Proof.
  unfold B64.rank_step. rewrite b64_doc_sum_summed.
  fold (summed refWords tfidf (S m)).
  set (s := summed refWords tfidf (S m)).
  assert (Last : forall k (P : Prop), (k <= S m)%nat ->
            (k = S m -> P) -> ((k <= m)%nat -> P) -> P).
  { intros k P K A B. destruct (Nat.eq_dec k (S m)); [auto | apply B; lia]. }
  intros [(I0 & M0 & N)|(i & Ri & Ii & Mi & Pi & Ear & Lat)].
  - rewrite M0. destruct (B64.geb s 0%float) eqn:G.
    + right. exists (S m). cbn [B64.maxId B64.maxSum]. fold s.
      split; [lia|]. split; [reflexivity|]. split; [reflexivity|].
      split; [assumption|]. split; [|intros k K; lia].
      intros k K.
      destruct (PrimFloat.ltb s (summed refWords tfidf k)) eqn:L;
        [|reflexivity].
      assert (C : B64.geb (summed refWords tfidf k) 0%float = true).
      { unfold B64.geb in *. apply ltb_leb. eapply leb_ltb_trans; eassumption. }
      rewrite N in C by lia. discriminate C.
    + left. split; [assumption|]. split; [assumption|].
      intros k K. apply (Last k); [lia | intros ->; exact G |].
      intros K'. apply N. lia.
  - rewrite Mi. destruct (B64.geb s (summed refWords tfidf i)) eqn:G.
    + right. exists (S m). cbn [B64.maxId B64.maxSum]. fold s.
      split; [lia|]. split; [reflexivity|]. split; [reflexivity|].
      unfold B64.geb in *.
      split; [eapply leb_trans; eassumption|]. split; [|intros k K; lia].
      intros k K.
      destruct (PrimFloat.ltb s (summed refWords tfidf k)) eqn:L;
        [|reflexivity].
      pose proof (leb_ltb_trans _ _ _ G L) as L'.
      destruct (Nat.lt_trichotomy k i) as [Lt|[->|Gt]].
      * rewrite Ear in L' by lia. discriminate L'.
      * apply leb_not_ltb in G. fold s in G. congruence.
      * apply ltb_leb in L'. rewrite Lat in L' by lia. discriminate L'.
    + right. exists i.
      split; [lia|]. split; [assumption|]. split; [assumption|].
      split; [assumption|]. split; [assumption|].
      intros k K. apply (Last k); [lia | intros ->; exact G |].
      intros K'. apply Lat. lia.
Qed.

Lemma b64_rank_loop_inv (refWords : smap Z) (tfidf : list (smap float))
    (m : nat) :
  b64_rank_inv refWords tfidf m
    (fold_left (B64.rank_step refWords tfidf) (seq 1 m) (B64.mkRank 0 0%float)).
Proof.
  induction m as [|m IH].
  - left. simpl. repeat split. intros k K; lia.
  - rewrite seq_S, fold_left_app. cbn [fold_left Nat.add].
    now apply b64_rank_step_inv.
Qed.

(** What the binary64 loop has established when it ends. *)
Lemma b64_rank_result (refWords : smap Z) (tfidf : list (smap float)) :
  (B64.getMostSimilarDocument refWords tfidf = 0%Z /\
   forall k, (1 <= k < List.length tfidf)%nat ->
             B64.geb (summed refWords tfidf k) 0%float = false)
  \/
  (exists i, b64_winner refWords tfidf i /\
             B64.getMostSimilarDocument refWords tfidf = (Z.of_nat i + 1)%Z).
Proof.
  unfold B64.getMostSimilarDocument.
  destruct (b64_rank_loop_inv refWords tfidf (List.length tfidf - 1))
    as [(I0 & _ & N)|(i & Ri & Ii & _ & Pi & Ear & Lat)].
  - left. split; [assumption|]. intros k K; apply N; lia.
  - right. exists i. split; [|assumption].
    split; [lia|]. split; [assumption|]. split; [assumption|].
    intros k K; apply Lat; lia.
Qed.

Lemma b64_winner_unique (refWords : smap Z) (tfidf : list (smap float))
    (i j : nat) :
  b64_winner refWords tfidf i -> b64_winner refWords tfidf j -> i = j.
Proof.
  assert (Ord : forall a b, (a < b)%nat ->
            b64_winner refWords tfidf a -> b64_winner refWords tfidf b -> False).
  { intros a b L (Ra & Pa & _ & La) (Rb & Pb & Eb & _).
    specialize (La b ltac:(lia)). specialize (Eb a ltac:(lia)).
    unfold B64.geb in *.
    rewrite (leb_total _ _ _ _ Pb Pa Eb) in La. discriminate La. }
  intros Wi Wj. destruct (Nat.lt_trichotomy i j) as [L|[E|L]];
    [exfalso | assumption | exfalso]; eapply Ord; eassumption.
Qed.

Lemma b64_rank_result_winner (refWords : smap Z) (tfidf : list (smap float))
    (i : nat) :
  b64_winner refWords tfidf i ->
  B64.getMostSimilarDocument refWords tfidf = (Z.of_nat i + 1)%Z.
Proof.
  intros W.
  destruct (b64_rank_result refWords tfidf) as [(_ & N)|(j & Wj & E)].
  - destruct W as (Ri & Pi & _). rewrite N in Pi by assumption.
    discriminate Pi.
  - now rewrite (b64_winner_unique _ _ _ _ W Wj).
Qed.

(** The row at index 0 is never read. *)
Lemma b64_rank_ignores_first (refWords : smap Z) (row0 row0' : smap float)
    (rest : list (smap float)) :
  B64.getMostSimilarDocument refWords (row0' :: rest)
  = B64.getMostSimilarDocument refWords (row0 :: rest).
Proof.
  unfold B64.getMostSimilarDocument. cbn [List.length]. f_equal.
  apply fold_left_ext_in. intros st i I.
  apply in_seq in I. unfold B64.rank_step.
  destruct i as [|i]; [lia|]. reflexivity.
Qed.


(** ** The claims about the returned id *)

(** C2, as the code has it: on every table of at least two documents
    getMostSimilarDocument never returns 1, the value that would name the
    reference document, and reads only the rows at indices 1 and above
    (replacing the row at index 0 changes nothing).  When some candidate
    has a summed score of at least 0 the id returned is the winning
    document's 0-based index plus 1, the winner being the last candidate
    of largest sum; when no candidate has (every sum is negative or NaN)
    the loop selects nothing and 0 is returned. *)
Theorem ranking_id (refWords : smap Z) (tfidf : list (smap float)) :
  (2 <= List.length tfidf)%nat ->
  B64.getMostSimilarDocument refWords tfidf <> 1%Z
  /\ (forall row0,
        B64.getMostSimilarDocument refWords (row0 :: tl tfidf)
        = B64.getMostSimilarDocument refWords tfidf)
  /\ (forall i, b64_winner refWords tfidf i ->
        B64.getMostSimilarDocument refWords tfidf = (Z.of_nat i + 1)%Z)
  /\ ((exists k, (1 <= k < List.length tfidf)%nat /\
                 B64.geb (summed refWords tfidf k) 0%float = true) ->
      exists i, b64_winner refWords tfidf i /\
                B64.getMostSimilarDocument refWords tfidf = (Z.of_nat i + 1)%Z)
  /\ ((forall k, (1 <= k < List.length tfidf)%nat ->
                 B64.geb (summed refWords tfidf k) 0%float = false) ->
      B64.getMostSimilarDocument refWords tfidf = 0%Z).
Proof.
  intros L. split; [|split; [|split; [|split]]].
  - destruct (b64_rank_result refWords tfidf) as [(E & _)|(i & W & E)];
      rewrite E; [lia|]. destruct W as (Ri & _). lia.
  - intros row0. destruct tfidf as [|r0 rest]; [simpl in L; lia|].
    apply b64_rank_ignores_first.
  - apply b64_rank_result_winner.
  - intros (k & K & P).
    destruct (b64_rank_result refWords tfidf) as [(_ & N)|H]; [|exact H].
    rewrite N in P by assumption. discriminate P.
  - intros N.
    destruct (b64_rank_result refWords tfidf) as [(E & _)|(i & W & _)];
      [exact E|].
    destruct W as (Ri & P & _). rewrite N in P by assumption. discriminate P.
Qed.

Lemma ranking_id_witness :
  B64.getMostSimilarDocument abc rounding_table = 2%Z.
Proof.
  assert (L : (2 <= List.length rounding_table)%nat) by (simpl; lia).
  refine (proj1 (proj2 (proj2 (ranking_id abc rounding_table L))) 1%nat _).
  split; [simpl; lia|]. split; [vm_compute; reflexivity|]. split.
  - intros k K. lia.
  - simpl List.length. intros k K. assert (k = 2)%nat as -> by lia.
    vm_compute. reflexivity.
Defined.

(** C2 as stated fails: on the table of the two documents [a b] and the
    empty text, a table of two documents, the value returned is 0, which
    is the index plus 1 of no candidate. *)
Lemma ranking_no_id_on_nan_table :
  List.length nan_table = 2%nat
  /\ B64.getMostSimilarDocument [("a", 1%Z); ("b", 1%Z)] nan_table = 0%Z
  /\ forall i, (1 <= i < List.length nan_table)%nat ->
       B64.getMostSimilarDocument [("a", 1%Z); ("b", 1%Z)] nan_table
       <> (Z.of_nat i + 1)%Z.
Proof.
  assert (E : B64.getMostSimilarDocument [("a", 1%Z); ("b", 1%Z)] nan_table
              = 0%Z) by (vm_compute; reflexivity).
  split; [reflexivity|]. split; [exact E|].
  intros i K. rewrite E. lia.
Qed.

(** How the NaN scores of [nan_table] arise: the TF of a word in a
    document without words is 0/0, and its product with the IDF log 2 is
    stored, because NaN is not zero. *)
Example scores_of_empty_document :
  PrimFloat.div 0%float 0%float = nan
  /\ B64.truthy nan = true
  /\ PrimFloat.mul nan 0x1.62e42fefa39efp-1%float = nan
  /\ PrimFloat.mul 0.5%float 0x1.62e42fefa39efp-1%float
     = 0x1.62e42fefa39efp-2%float.
Proof. repeat split; vm_compute; reflexivity. Qed.




(** Rounding decides: the two candidates of [rounding_table] have the
    same exact sum, and the first of them is returned; the candidate of
    [cancelling_table] has a negative exact sum, and is returned. *)
Example ranking_rounding_table :
  summed abc rounding_table 1 = 0x1.0000000000001p+0%float
  /\ summed abc rounding_table 2 = 1%float
  /\ B64.getMostSimilarDocument abc rounding_table = 2%Z.
Proof. repeat split; vm_compute; reflexivity. Qed.

Example ranking_cancelling_table :
  summed abc cancelling_table 1 = 0%float
  /\ B64.getMostSimilarDocument abc cancelling_table = 2%Z.
Proof. repeat split; vm_compute; reflexivity. Qed.

(** ** Further properties of the returned id *)

(** X20: getMostSimilarDocument returns 0 exactly when no document after
    the first has a summed score of at least 0 (each sum is negative or
    NaN), in particular when there is no such document at all. *)
Theorem ranking_zero (refWords : smap Z) (tfidf : list (smap float)) :
  B64.getMostSimilarDocument refWords tfidf = 0%Z
  <-> forall k, (1 <= k < List.length tfidf)%nat ->
                B64.geb (summed refWords tfidf k) 0%float = false.
Proof.
  destruct (b64_rank_result refWords tfidf) as [(E & N)|(i & W & E)].
  - tauto.
  - destruct W as (Ri & P & _). rewrite E. split; [lia|].
    intros N. rewrite N in P by assumption. discriminate P.
Qed.

(** X21: with two or more documents, when the last document has a summed
    score of at least 0 and no earlier candidate has a larger one, its
    id, the number of documents, is returned; so a table whose candidates
    all sum to 0 reports the last document. *)
Theorem ranking_last (refWords : smap Z) (tfidf : list (smap float)) :
  (2 <= List.length tfidf)%nat ->
  B64.geb (summed refWords tfidf (List.length tfidf - 1)) 0%float = true ->
  (forall k, (1 <= k < List.length tfidf - 1)%nat ->
     PrimFloat.ltb (summed refWords tfidf (List.length tfidf - 1))
                   (summed refWords tfidf k) = false) ->
  B64.getMostSimilarDocument refWords tfidf = Z.of_nat (List.length tfidf).
Proof.
  intros L P M.
  rewrite (b64_rank_result_winner refWords tfidf (List.length tfidf - 1)).
  - lia.
  - split; [lia|]. split; [assumption|]. split; [assumption|].
    intros k K. lia.
Qed.

Lemma ranking_last_witness :
  B64.getMostSimilarDocument [("w", 1%Z)]
    [[("w", 0.5%float)]; [("w", 0%float)]; []] = 3%Z.
Proof.
  refine (ranking_last [("w", 1%Z)]
            [[("w", 0.5%float)]; [("w", 0%float)]; []] _ _ _).
  - simpl. apply le_S, le_n.
  - vm_compute. reflexivity.
  - simpl List.length. intros k K. assert (k = 1)%nat as -> by lia.
    vm_compute. reflexivity.
Defined.
